(** * auto_avsr data preparation: split_video_audio.py and audio_transcription.py

    A shallow embedding of the two batch jobs of the repository and the
    properties of their batch orchestration: suffix selection, path
    mirroring, skip-if-done, per-file failure isolation and the JSON sidecar.

    Layout of the development:
    - [Str], [PosixPath]: the [str] methods and [os.path] functions used;
    - file tree, effects and the state-and-exception monad;
    - [Json]: [json.dump(..., indent=2)] and a reader for what it writes;
    - the four functions of the two source files, under their own names;
    - lemmas and the properties of the jobs. *)

From Stdlib Require Import Ascii String.
From stdpp Require Import gmap strings list fin_maps.

(** ** Python [str] methods *)

(** A Python [str] is modelled as a [string] over eight-bit characters, read
    as the code points 0..255 (ASCII and Latin-1). *)
Module Str.

(** [c.lower()] for one character: A-Z, and the Latin-1 capitals
    (U+00C0..U+00DE without the multiplication sign U+00D7). *)
Definition lower_char (c : ascii) : ascii :=
  let n := nat_of_ascii c in
  if ((65 <=? n) && (n <=? 90))%nat then ascii_of_nat (n + 32)
  else if ((192 <=? n) && (n <=? 222) && negb (n =? 215))%nat then ascii_of_nat (n + 32)
  else c.

(** [s.lower()] *)
Fixpoint lower (s : string) : string :=
  match s with
  | EmptyString => EmptyString
  | String c r => String (lower_char c) (lower r)
  end.

(** [s.startswith(p)] *)
Fixpoint startswith (s p : string) : bool :=
  match p, s with
  | EmptyString, _ => true
  | String b p', String a s' => bool_decide (a = b) && startswith s' p'
  | String _ _, EmptyString => false
  end.

(** [s.endswith(suf)]: some tail of [s] is [suf]. *)
Fixpoint endswith (s suf : string) : bool :=
  if decide (s = suf) then true
  else match s with
       | EmptyString => false
       | String _ r => endswith r suf
       end.

(** [s.endswith((suf1, suf2, ...))] with a tuple of suffixes. *)
Definition endswith_any (s : string) (sufs : list string) : bool :=
  existsb (endswith s) sufs.

(** [s[:n]] *)
Fixpoint take (n : nat) (s : string) : string :=
  match n, s with
  | S n', String c r => String c (take n' r)
  | _, _ => EmptyString
  end.

(** [not s] for a string: the empty string is the only falsy one. *)
Definition falsy (s : string) : bool := bool_decide (s = EmptyString).

(** [sep.join(parts)] *)
Fixpoint join_with (sep : string) (parts : list string) : string :=
  match parts with
  | [] => EmptyString
  | [x] => x
  | x :: rest => x +:+ sep +:+ join_with sep rest
  end.

End Str.

(** ** [os.path] on POSIX ([posixpath], [genericpath]) *)

Module PosixPath.

Definition sep : ascii := "/"%char.
Definition extsep : ascii := "."%char.

Definition is_sep (c : ascii) : bool := bool_decide (c = sep).

Fixpoint all_sep (s : string) : bool :=
  match s with
  | EmptyString => true
  | String c r => is_sep c && all_sep r
  end.

Fixpoint has_sep (s : string) : bool :=
  match s with
  | EmptyString => false
  | String c r => is_sep c || has_sep r
  end.

Fixpoint all_dots (s : string) : bool :=
  match s with
  | EmptyString => true
  | String c r => bool_decide (c = extsep) && all_dots r
  end.

(** [s.endswith('/')] *)
Fixpoint ends_with_sep (s : string) : bool :=
  match s with
  | EmptyString => false
  | String c EmptyString => is_sep c
  | String _ r => ends_with_sep r
  end.

(** [p.startswith('/')], which is [isabs(p)]. *)
Definition isabs (p : string) : bool :=
  match p with
  | String c _ => is_sep c
  | EmptyString => false
  end.

(** [head.rstrip('/')] *)
Fixpoint rstrip_sep (s : string) : string :=
  match s with
  | EmptyString => EmptyString
  | String c r =>
      let r' := rstrip_sep r in
      if is_sep c && bool_decide (r' = EmptyString) then EmptyString
      else String c r'
  end.

(** [i = p.rfind('/') + 1; (p[:i], p[i:])] *)
Fixpoint cut_last_sep (p : string) : string * string :=
  match p with
  | EmptyString => (EmptyString, EmptyString)
  | String c r =>
      let '(h, t) := cut_last_sep r in
      if is_sep c then (String c h, t)
      else if bool_decide (h = EmptyString) then (EmptyString, String c t)
      else (String c h, t)
  end.

(** [os.path.split(p)]:
    [if head and head != sep*len(head): head = head.rstrip(sep)]. *)
Definition split (p : string) : string * string :=
  let '(head, tail) := cut_last_sep p in
  (if negb (Str.falsy head) && negb (all_sep head) then rstrip_sep head else head,
   tail).

(** The cut at the last dot: [Some (a, e)] with [t = a ++ e] and [e]
    starting with the last dot of [t]; [None] when [t] has no dot. *)
Fixpoint cut_last_dot (t : string) : option (string * string) :=
  match t with
  | EmptyString => None
  | String c r =>
      match cut_last_dot r with
      | Some (a, e) => Some (String c a, e)
      | None => if bool_decide (c = extsep) then Some (EmptyString, String c r) else None
      end
  end.

(** [os.path.splitext(p)] ([genericpath._splitext]): the extension starts
    at the last dot of the last component, unless only dots precede it. *)
Definition splitext (p : string) : string * string :=
  let '(h, t) := cut_last_sep p in
  match cut_last_dot t with
  | Some (a, e) => if all_dots a then (p, EmptyString) else (h +:+ a, e)
  | None => (p, EmptyString)
  end.

(** [os.path.join(a, b)] with two arguments. *)
Definition join (a b : string) : string :=
  if isabs b || Str.falsy a then b
  else if ends_with_sep a then a +:+ b
  else a +:+ String sep b.

(** [p.split('/')] *)
Fixpoint split_sep (p : string) : list string :=
  match p with
  | EmptyString => [EmptyString]
  | String c r =>
      if is_sep c then EmptyString :: split_sep r
      else match split_sep r with
           | x :: xs => String c x :: xs
           | [] => [String c EmptyString]
           end
  end.

Definition curdir : string := ".".
Definition pardir : string := "..".

(** One turn of the loop of [normpath] on an absolute path: empty and dot
    components are skipped, [..] drops the last component (and is dropped
    at the root). *)
Definition norm_step (acc : list string) (comp : string) : list string :=
  if bool_decide (comp = EmptyString) || bool_decide (comp = curdir) then acc
  else if bool_decide (comp = pardir) then removelast acc
  else acc ++ [comp].

(** The components of [os.path.abspath(p)] when the working directory has
    the components [cwd]: [normpath(join(getcwd(), p))], split at the
    separator. *)
Definition abs_comps (cwd : list string) (p : string) : list string :=
  fold_left norm_step (split_sep p) (if isabs p then [] else cwd).

(** [os.path.commonprefix] on two component lists. *)
Fixpoint commonprefix (l1 l2 : list string) : list string :=
  match l1, l2 with
  | x :: l1', y :: l2' => if decide (x = y) then x :: commonprefix l1' l2' else []
  | _, _ => []
  end.

(** [os.path.relpath(path, start)]; [None] is the [ValueError] raised for
    an empty [path]. *)
Definition relpath (cwd : list string) (path start : string) : option string :=
  if Str.falsy path then None
  else
    let start_list := abs_comps cwd start in
    let path_list := abs_comps cwd path in
    let i := length (commonprefix start_list path_list) in
    let rel_list := replicate (length start_list - i) pardir ++ drop i path_list in
    Some (if bool_decide (rel_list = []) then curdir else Str.join_with "/" rel_list).

(** A name a directory entry can have: not empty, not [.] or [..], no
    separator. *)
Definition valid_name (n : string) : bool :=
  negb (bool_decide (n = EmptyString)) && negb (bool_decide (n = curdir))
  && negb (bool_decide (n = pardir)) && negb (has_sep n).

End PosixPath.

(** ** The file tree, the collaborators and the effects *)

(** A node of the file tree. Symbolic links are not modelled. *)
Inductive node :=
| File (content : string)
| Dir.

(** The exceptions that can reach the code; all are subclasses of Python's
    [Exception]. [CollaboratorError] stands for whatever the speech
    recognition library raises. *)
Inductive exn :=
| FileNotFoundError (what : string)
| FileExistsError (path : list string)
| NotADirectoryError (path : list string)
| IsADirectoryError (path : list string)
| PermissionError (path : list string)
| OSError (path : list string)
| ValueError (what : string)
| CalledProcessError (cmd : list string)
| CollaboratorError (what : string).

Inductive result (A : Type) :=
| Ok (a : A)
| Raise (e : exn).
Arguments Ok {A} a.
Arguments Raise {A} e.

(** An invocation of an external collaborator. *)
Inductive call :=
| LoadModel (name : string)                      (* whisper.load_model(name) *)
| Transcribe (audio_file language : string)      (* model.transcribe(audio_file, language=language) *)
| Run (cmd : list string).                       (* subprocess.run(cmd, check=True) *)

(** The lines the two programs print. *)
Inductive line :=
| Processing (audio_file : string)               (* Processing: {audio_file} *)
| AudioNotFound (audio_file : string)            (* Error: Audio file {audio_file} not found *)
| LoadingModel                                   (* Loading Whisper model (may download if first run)... *)
| Transcribing (audio_file : string)             (* Transcribing {audio_file}... *)
| TranscriptionSuccessful (shown : string)       (* Transcription successful: {transcription[:50]}... *)
| UnexpectedError (e : exn)                      (* Unexpected error during transcription: {e} *)
| Found (n : nat)                                (* Found {len(audio_files)} audio files to process *)
| Skipping (input_file : string)                 (* Skipping {input_file} (already transcribed) *)
| ErrorProcessing (input_file : string) (e : exn) (* Error processing {input_file}: {e} *)
| ExtractingVideo (video_output : string)        (* Extracting video to {video_output}... *)
| ExtractingAudio (audio_output : string)        (* Extracting audio to {audio_output}... *)
| ExtractionComplete                             (* Extraction complete! *)
| Processed (input_file : string).               (* Processed: {input_file} *)

(** What a run does to the world besides changing the file tree, in order. *)
Inductive event :=
| Print (l : line)
| Invoke (c : call)
| MadeDir (path : list string)
| Wrote (path : list string).

Global Instance node_eq_dec : EqDecision node.
Proof. solve_decision. Defined.
Global Instance exn_eq_dec : EqDecision exn.
Proof. solve_decision. Defined.
Global Instance call_eq_dec : EqDecision call.
Proof. solve_decision. Defined.
Global Instance line_eq_dec : EqDecision line.
Proof. solve_decision. Defined.
Global Instance event_eq_dec : EqDecision event.
Proof. solve_decision. Defined.

(** The file tree: absolute, normalised paths (component lists) to nodes.
    The root directory is the empty list and always exists. *)
Abbreviation tree := (gmap (list string) node).

Definition node_at (t : tree) (c : list string) : option node :=
  match c with
  | [] => Some Dir
  | _ => t !! c
  end.

Definition is_dir_node (o : option node) : bool :=
  match o with
  | Some Dir => true
  | _ => false
  end.

(** The environment of a run: the working directory, the answers of the
    collaborators (black boxes with an input/output contract; the answer to
    a given request is fixed for the environment) and the faults of the file
    system that the tree itself does not explain (permissions, full disk). *)
Record Env := {
  cwd : list string;
  (** [whisper.load_model(name)]: [Some e] when loading raises [e]. *)
  whisper_load_model : string → option exn;
  (** [model.transcribe(audio_file, language=language)["text"]] *)
  whisper_transcribe : string → string → result string;
  (** [subprocess.run(cmd, check=True)] for an ffmpeg command line: the
      content written to the output file (the last argument) on exit status
      0, the exception otherwise. *)
  ffmpeg : list string → result string;
  mkdir_fault : list string → bool;
  open_fault : list string → bool;
  write_fault : list string → bool;
}.

Record state := {
  fs : tree;
  log : list event;
}.

(** ** State and exceptions *)

Definition M (A : Type) : Type := state → result A * state.

Global Instance M_ret : MRet M := λ A a s, (Ok a, s).

Global Instance M_bind : MBind M := λ A B k m s,
  match m s with
  | (Ok a, s') => k a s'
  | (Raise e, s') => (Raise e, s')
  end.

Definition raise {A} (e : exn) : M A := λ s, (Raise e, s).

(** [try: body except Exception as e: handler(e)] *)
Definition try_except {A} (body : M A) (handler : exn → M A) : M A :=
  λ s, match body s with
       | (Ok a, s') => (Ok a, s')
       | (Raise e, s') => handler e s'
       end.

Definition get_fs : M tree := λ s, (Ok (fs s), s).
Definition put_fs (t : tree) : M unit := λ s, (Ok tt, {| fs := t; log := log s |}).
Definition emit (ev : event) : M unit := λ s, (Ok tt, {| fs := fs s; log := log s ++ [ev] |}).
Definition print (l : line) : M unit := emit (Print l).

(** [for x in xs: body], where the body updates the running count. *)
Fixpoint for_each {A} (body : A → nat → M nat) (xs : list A) (processed_count : nat) : M nat :=
  match xs with
  | [] => mret processed_count
  | x :: rest => n ← body x processed_count ; for_each body rest n
  end.

(** ** [os] and [open] on the file tree *)

Section FileSystem.
Context (E : Env).

(** How the system resolves a path string: lexically, from the working
    directory. *)
Definition resolve (p : string) : list string := PosixPath.abs_comps (cwd E) p.

(** [os.path.exists(p)]; [stat] of the empty path fails. *)
Definition exists_in (t : tree) (p : string) : bool :=
  negb (Str.falsy p) && bool_decide (is_Some (node_at t (resolve p))).

Definition path_exists (p : string) : M bool :=
  t ← get_fs ; mret (exists_in t p).

(** [os.mkdir] of the directory with components [c]. *)
Definition mkdir (c : list string) : M unit :=
  t ← get_fs ;
  match node_at t c with
  | Some _ => raise (FileExistsError c)
  | None =>
      match node_at t (removelast c) with
      | None => raise (FileNotFoundError "mkdir")
      | Some (File _) => raise (NotADirectoryError c)
      | Some Dir =>
          if mkdir_fault E c then raise (PermissionError c)
          else (put_fs (<[c := Dir]> t) ;; emit (MadeDir c))
      end
  end.

(** [os.makedirs] on the reversed components [tail :: rhead] of a path:
    [if head and tail and not path.exists(head): try: makedirs(head) except
    FileExistsError: pass], then [mkdir(name)]. *)
Fixpoint makedirs_at (rc : list string) : M unit :=
  match rc with
  | [] => mkdir []
  | _ :: rhead =>
      t ← get_fs ;
      (if bool_decide (is_Some (node_at t (rev rhead))) then mret tt
       else try_except (makedirs_at rhead)
              (λ e, match e with FileExistsError _ => mret tt | _ => raise e end)) ;;
      mkdir (rev rc)
  end.

(** [os.makedirs(name)] *)
Definition makedirs (name : string) : M unit :=
  if Str.falsy name then raise (FileNotFoundError "makedirs")
  else makedirs_at (rev (resolve name)).

(** [with open(p, 'w') as f: f.write(content)]. Opening creates or
    truncates the file; a failure while writing leaves it empty. *)
Definition write_file (p : string) (content : string) : M unit :=
  if Str.falsy p then raise (FileNotFoundError "open")
  else
    let c := resolve p in
    t ← get_fs ;
    match node_at t c with
    | Some Dir => raise (IsADirectoryError c)
    | _ =>
        match node_at t (removelast c) with
        | None => raise (FileNotFoundError "open")
        | Some (File _) => raise (NotADirectoryError c)
        | Some Dir =>
            if open_fault E c then raise (PermissionError c)
            else if write_fault E c then (put_fs (<[c := File ""]> t) ;; raise (OSError c))
            else (put_fs (<[c := File content]> t) ;; emit (Wrote c))
        end
    end.

(** The entry name of [k] in the directory [c], when [k] lies directly
    under [c]. *)
Fixpoint child_name (c k : list string) : option string :=
  match c, k with
  | [], [n] => Some n
  | x :: c', y :: k' => if decide (x = y) then child_name c' k' else None
  | _, _ => None
  end.

(** [os.scandir]: the entries directly under the directory [c]. *)
Definition scandir (t : tree) (c : list string) : list (string * node) :=
  omap (λ kn, match child_name c kn.1 with
              | Some n => if PosixPath.valid_name n then Some (n, kn.2) else None
              | None => None
              end) (map_to_list t).

Definition entry_is_dir (e : string * node) : bool :=
  match e.2 with Dir => true | File _ => false end.

(** [os.walk(top)], top down: [(root, dirs, files)] for [top], then the
    walks of its sub-directories [join(top, d)]. A [top] that cannot be
    scanned yields nothing. *)
Fixpoint walk_from (fuel : nat) (t : tree) (top : string)
  : list (string * list string * list string) :=
  match fuel with
  | O => []
  | S fuel' =>
      if negb (Str.falsy top) && is_dir_node (node_at t (resolve top)) then
        let entries := scandir t (resolve top) in
        let dirs := (filter (λ e, entry_is_dir e = true) entries).*1 in
        let nondirs := (filter (λ e, entry_is_dir e = false) entries).*1 in
        (top, dirs, nondirs)
          :: flat_map (λ d, walk_from fuel' t (PosixPath.join top d)) dirs
      else []
  end.

(** The length of the longest path of the tree bounds the depth of a walk. *)
Definition depth (t : tree) : nat := max_list (length <$> (map_to_list t).*1).

Definition os_walk (t : tree) (top : string) : list (string * list string * list string) :=
  walk_from (S (depth t)) t top.

End FileSystem.

(** ** [json]: what [json.dump(d, f, indent=2)] writes, and reading it back *)

Module Json.

Definition dquote : ascii := Eval cbv in ascii_of_nat 34.
Definition backslash : ascii := "\"%char.
Definition newline : ascii := Eval cbv in ascii_of_nat 10.

Definition hex_digit (n : nat) : ascii :=
  match n with
  | 0 => "0" | 1 => "1" | 2 => "2" | 3 => "3" | 4 => "4" | 5 => "5" | 6 => "6" | 7 => "7"
  | 8 => "8" | 9 => "9" | 10 => "a" | 11 => "b" | 12 => "c" | 13 => "d" | 14 => "e" | _ => "f"
  end%char.

(** [ESCAPE_DCT] of [json.encoder] and the [\uXXXX] fallback of
    [py_encode_basestring_ascii] ([ensure_ascii] is on by default). *)
Definition escape_char (c : ascii) : string :=
  let n := nat_of_ascii c in
  if bool_decide (c = dquote) then String backslash (String dquote "")
  else if bool_decide (c = backslash) then String backslash (String backslash "")
  else if (n =? 8)%nat then String backslash "b"
  else if (n =? 12)%nat then String backslash "f"
  else if (n =? 10)%nat then String backslash "n"
  else if (n =? 13)%nat then String backslash "r"
  else if (n =? 9)%nat then String backslash "t"
  else if ((32 <=? n) && (n <=? 126))%nat then String c ""
  else String backslash
         (String "u" (String "0" (String "0"
            (String (hex_digit (n / 16)) (String (hex_digit (n mod 16)) ""))))).

Fixpoint escape (s : string) : string :=
  match s with
  | EmptyString => EmptyString
  | String c r => escape_char c +:+ escape r
  end.

(** A string literal. *)
Definition encode_string (s : string) : string :=
  String dquote (escape s +:+ String dquote "").

(** One member: [key: value] with the key separator [": "]. *)
Definition encode_member (kv : string * string) : string :=
  encode_string kv.1 +:+ ": " +:+ encode_string kv.2.

(** The members, each on a line of its own, separated by [","] and the
    newline followed by the indentation. *)
Fixpoint encode_members (ms : list (string * string)) : string :=
  match ms with
  | [] => EmptyString
  | [kv] => encode_member kv
  | kv :: rest => encode_member kv +:+ "," +:+ String newline "  " +:+ encode_members rest
  end.

(** [json.dumps(d, indent=2)] for a dict [d] of strings, given by its
    items in insertion order. *)
Definition dumps_indent2 (d : list (string * string)) : string :=
  match d with
  | [] => "{}"
  | _ => "{" +:+ String newline "  " +:+ encode_members d +:+ String newline "}"
  end.

(** The dict with the given items, inserted in order. *)
Definition dict_of (d : list (string * string)) : gmap string string :=
  foldl (λ m kv, <[kv.1 := kv.2]> m) ∅ d.

(** *** The reader ([json.loads], for objects whose values are strings) *)

Definition is_ws (c : ascii) : bool :=
  let n := nat_of_ascii c in
  ((n =? 32) || (n =? 9) || (n =? 10) || (n =? 13))%nat.

Fixpoint skip_ws (s : string) : string :=
  match s with
  | String c r => if is_ws c then skip_ws r else s
  | EmptyString => EmptyString
  end.

Definition hex_val (c : ascii) : option nat :=
  let n := nat_of_ascii c in
  if ((48 <=? n) && (n <=? 57))%nat then Some (n - 48)
  else if ((97 <=? n) && (n <=? 102))%nat then Some (n - 87)
  else if ((65 <=? n) && (n <=? 70))%nat then Some (n - 55)
  else None.

(** The character a one-letter escape stands for ([BACKSLASH] of
    [json.decoder]). *)
Definition unescape1 (e : ascii) : option ascii :=
  if bool_decide (e = dquote) then Some dquote
  else if bool_decide (e = backslash) then Some backslash
  else if bool_decide (e = "/"%char) then Some "/"%char
  else if bool_decide (e = "b"%char) then Some (ascii_of_nat 8)
  else if bool_decide (e = "f"%char) then Some (ascii_of_nat 12)
  else if bool_decide (e = "n"%char) then Some (ascii_of_nat 10)
  else if bool_decide (e = "r"%char) then Some (ascii_of_nat 13)
  else if bool_decide (e = "t"%char) then Some (ascii_of_nat 9)
  else None.

Definition cons_char (c : ascii) (o : option (string * string)) : option (string * string) :=
  match o with
  | Some (v, rest) => Some (String c v, rest)
  | None => None
  end.

(** [py_scanstring], strict: from just after the opening quote, the value
    of the literal and what follows its closing quote. Control characters
    are refused; a [\uXXXX] above U+00FF is outside the modelled alphabet. *)
Fixpoint scan_string (s : string) : option (string * string) :=
  match s with
  | EmptyString => None
  | String c r =>
      if bool_decide (c = dquote) then Some (EmptyString, r)
      else if bool_decide (c = backslash) then
        match r with
        | EmptyString => None
        | String e r1 =>
            match unescape1 e with
            | Some ch => cons_char ch (scan_string r1)
            | None =>
                if bool_decide (e = "u"%char) then
                  match r1 with
                  | String h3 (String h2 (String h1 (String h0 r2))) =>
                      match hex_val h3, hex_val h2, hex_val h1, hex_val h0 with
                      | Some a, Some b, Some c', Some d =>
                          let n := ((a * 16 + b) * 16 + c') * 16 + d in
                          if (n <? 256)%nat then cons_char (ascii_of_nat n) (scan_string r2)
                          else None
                      | _, _, _, _ => None
                      end
                  | _ => None
                  end
                else None
            end
        end
      else if (nat_of_ascii c <? 32)%nat then None
      else cons_char c (scan_string r)
  end.

Definition expect (c : ascii) (s : string) : option string :=
  match s with
  | String c' r => if bool_decide (c' = c) then Some r else None
  | EmptyString => None
  end.

(** One member [key : value], both string literals. *)
Definition parse_member (s : string) : option (string * string * string) :=
  r0 ← expect dquote s;
  kr ← scan_string r0;
  r2 ← expect ":"%char (skip_ws kr.2);
  r3 ← expect dquote (skip_ws r2);
  vr ← scan_string r3;
  Some (kr.1, vr.1, vr.2).

(** The members up to the closing brace; a repeated key keeps its last
    value, as in a Python dict. *)
Fixpoint parse_members (fuel : nat) (acc : gmap string string) (s : string)
  : option (gmap string string * string) :=
  match fuel with
  | O => None
  | S fuel' =>
      m ← parse_member s;
      let acc' := <[m.1.1 := m.1.2]> acc in
      match skip_ws m.2 with
      | String c r =>
          if bool_decide (c = ","%char) then parse_members fuel' acc' (skip_ws r)
          else if bool_decide (c = "}"%char) then Some (acc', r)
          else None
      | EmptyString => None
      end
  end.

(** [json.loads(s)] for an object of strings; [None] for anything else. *)
Definition loads (s : string) : option (gmap string string) :=
  r ← expect "{"%char (skip_ws s);
  match skip_ws r with
  | EmptyString => None
  | String c r' as body =>
      mr ← (if bool_decide (c = "}"%char) then Some (∅, r')
            else parse_members (String.length s) ∅ body);
      if bool_decide (skip_ws mr.2 = EmptyString) then Some mr.1 else None
  end.

End Json.

(** ** The collaborators *)

Section Collaborators.
Context (E : Env).

(** [whisper.load_model(name)] *)
Definition load_model (name : string) : M unit :=
  emit (Invoke (LoadModel name)) ;;
  match whisper_load_model E name with
  | Some e => raise e
  | None => mret tt
  end.

(** [model.transcribe(audio_file, language=language)["text"]] *)
Definition model_transcribe (audio_file language : string) : M string :=
  emit (Invoke (Transcribe audio_file language)) ;;
  match whisper_transcribe E audio_file language with
  | Ok text => mret text
  | Raise e => raise e
  end.

(** The output file of a process that exited with status 0: the process
    cannot have succeeded if the tree has no place for it. *)
Definition deliver (cmd : list string) (content : string) : M unit :=
  let p := List.last cmd "" in
  let c := resolve E p in
  t ← get_fs ;
  if Str.falsy p || is_dir_node (node_at t c) || negb (is_dir_node (node_at t (removelast c)))
  then raise (CalledProcessError cmd)
  else (put_fs (<[c := File content]> t) ;; emit (Wrote c)).

(** [subprocess.run(cmd, check=True)] *)
Definition subprocess_run (cmd : list string) : M unit :=
  emit (Invoke (Run cmd)) ;;
  match ffmpeg E cmd with
  | Ok content => deliver cmd content
  | Raise e => raise e
  end.

End Collaborators.

(** ** audio_transcription.py *)

Section AudioTranscription.
Context (E : Env).

(** [transcribe_audio_with_whisper(audio_file, language="en")],
    lines 7-40. *)
Definition transcribe_audio_with_whisper (audio_file language : string) : M string :=
  print (Processing audio_file) ;;
  try_except
    (found ← path_exists E audio_file ;
     if negb found then
       print (AudioNotFound audio_file) ;;
       mret ""
     else
       print LoadingModel ;;
       load_model E "tiny" ;;
       print (Transcribing audio_file) ;;
       transcription ← model_transcribe E audio_file language ;
       print (TranscriptionSuccessful (Str.take 50 transcription)) ;;
       mret transcription)
    (λ e, print (UnexpectedError e) ;; mret "").

(** [file.lower().endswith(('_audio.wav', '.mp3', '.aac', '.flac'))],
    line 62. *)
Definition is_audio (file : string) : bool :=
  Str.endswith_any (Str.lower file) ["_audio.wav"; ".mp3"; ".aac"; ".flac"].

(** Lines 59-63: the [(root, file)] pairs collected from [os.walk]. *)
Definition find_audio_files (t : tree) (input_dir : string) : list (string * string) :=
  flat_map (λ item : string * list string * list string,
              (λ file, (item.1.1, file)) <$> filter (λ file, is_audio file = true) item.2)
           (os_walk E t input_dir).

(** Lines 69-75 (and lines 73-79 of split_video_audio.py): the output
    directory that corresponds to [root]; [None] when [relpath] raises. *)
Definition mirrored_dir (input_dir output_dir root : string) : option string :=
  rel_path ← PosixPath.relpath (cwd E) root input_dir ;
  Some (if bool_decide (rel_path = ".") then output_dir
        else PosixPath.join output_dir rel_path).

Definition mirror (input_dir output_dir root : string) : M string :=
  match mirrored_dir input_dir output_dir root with
  | None => raise (ValueError "no path specified")
  | Some current_output_dir => mret current_output_dir
  end.

(** [if not os.path.exists(d): os.makedirs(d)] *)
Definition ensure_dir (d : string) : M unit :=
  found ← path_exists E d ;
  if negb found then makedirs E d else mret tt.

Definition output_file_of (current_output_dir file : string) : string :=
  PosixPath.join current_output_dir ((PosixPath.splitext file).1 +:+ ".txt").

Definition json_output_of (current_output_dir file : string) : string :=
  PosixPath.join current_output_dir ((PosixPath.splitext file).1 +:+ ".json").

(** The dict of lines 104-108. *)
Definition sidecar (input_file transcription : string) : list (string * string) :=
  [("audio_file", input_file); ("transcription", transcription); ("language", "en")].

(** Lines 86-113: the [try] block of one audio file. *)
Definition transcribe_and_save (current_output_dir root file : string)
    (processed_count : nat) : M nat :=
  let input_file := PosixPath.join root file in
  let output_file := output_file_of current_output_dir file in
  try_except
    (already ← path_exists E output_file ;
     if (already : bool) then
       print (Skipping input_file) ;;
       mret (processed_count + 1)
     else
       transcription ← transcribe_audio_with_whisper input_file "en" ;
       if negb (Str.falsy transcription) then
         write_file E output_file transcription ;;
         write_file E (json_output_of current_output_dir file)
           (Json.dumps_indent2 (sidecar input_file transcription)) ;;
         mret (processed_count + 1)
       else mret processed_count)
    (λ e, print (ErrorProcessing input_file e) ;; mret processed_count).

(** Lines 68-113: one turn of the loop over [audio_files]. The directory
    is resolved and created outside the [try]. *)
Definition transcribe_one (input_dir output_dir : string) (rf : string * string)
    (processed_count : nat) : M nat :=
  current_output_dir ← mirror input_dir output_dir rf.1 ;
  ensure_dir current_output_dir ;;
  transcribe_and_save current_output_dir rf.1 rf.2 processed_count.

(** The loop of line 68. *)
Definition transcribe_all (input_dir output_dir : string)
    (audio_files : list (string * string)) (processed_count : nat) : M nat :=
  for_each (transcribe_one input_dir output_dir) audio_files processed_count.

(** [process_audio_directory(input_dir, output_dir)], lines 42-115. The
    walk is finished before the first file is processed. *)
Definition process_audio_directory (input_dir output_dir : string) : M nat :=
  ensure_dir output_dir ;;
  t ← get_fs ;
  let audio_files := find_audio_files t input_dir in
  print (Found (length audio_files)) ;;
  transcribe_all input_dir output_dir audio_files 0.

End AudioTranscription.

(** ** split_video_audio.py *)

Section SplitVideoAudio.
Context (E : Env).

(** Lines 19-24: [if not output_dir: output_dir = input_path]. *)
Definition effective_output_dir (input_file : string) (output_dir : option string) : string :=
  let input_path := (PosixPath.split input_file).1 in
  match output_dir with
  | Some d => if Str.falsy d then input_path else d
  | None => input_path
  end.

(** Line 20: the file name without its extension. *)
Definition base_of (input_file : string) : string :=
  (PosixPath.splitext (PosixPath.split input_file).2).1.

(** Lines 31-32. *)
Definition video_output_of (output_dir input_file : string) : string :=
  PosixPath.join output_dir (base_of input_file +:+ "_video.mp4").
Definition audio_output_of (output_dir input_file : string) : string :=
  PosixPath.join output_dir (base_of input_file +:+ "_audio.wav").

(** Lines 35-46. *)
Definition video_cmd (input_file video_output : string) : list string :=
  ["ffmpeg"; "-i"; input_file; "-c:v"; "copy"; "-an"; video_output].
Definition audio_cmd (input_file audio_output : string) : list string :=
  ["ffmpeg"; "-i"; input_file; "-vn"; "-acodec"; "pcm_s16le"; audio_output].

(** [split_video_audio(input_file, output_dir=None)], lines 4-55. *)
Definition split_video_audio (input_file : string) (output_dir : option string)
  : M (string * string) :=
  found ← path_exists E input_file ;
  if negb found then raise (FileNotFoundError ("Input file not found: " +:+ input_file))
  else
    let output_dir := effective_output_dir input_file output_dir in
    ensure_dir E output_dir ;;
    let video_output := video_output_of output_dir input_file in
    let audio_output := audio_output_of output_dir input_file in
    print (ExtractingVideo video_output) ;;
    subprocess_run E (video_cmd input_file video_output) ;;
    print (ExtractingAudio audio_output) ;;
    subprocess_run E (audio_cmd input_file audio_output) ;;
    print ExtractionComplete ;;
    mret (video_output, audio_output).

(** [file.lower().endswith('.mp4')], line 83. *)
Definition is_mp4 (file : string) : bool := Str.endswith (Str.lower file) ".mp4".

(** Lines 83-90: one file of the directory being visited. *)
Definition split_one (current_output_dir root file : string) (processed_count : nat) : M nat :=
  if is_mp4 file then
    let input_file := PosixPath.join root file in
    try_except
      (split_video_audio input_file (Some current_output_dir) ;;
       print (Processed input_file) ;;
       mret (processed_count + 1))
      (λ e, print (ErrorProcessing input_file e) ;; mret processed_count)
  else mret processed_count.

(** The loop of line 82. *)
Definition split_files (current_output_dir root : string) (files : list string)
    (processed_count : nat) : M nat :=
  for_each (split_one current_output_dir root) files processed_count.

(** Lines 71-90: one directory of the walk. *)
Definition split_dir (input_dir output_base_dir : string)
    (item : string * list string * list string) (processed_count : nat) : M nat :=
  current_output_dir ← mirror E input_dir output_base_dir item.1.1 ;
  split_files current_output_dir item.1.1 item.2 processed_count.

(** The loop of line 71. *)
Definition split_dirs (input_dir output_base_dir : string)
    (items : list (string * list string * list string)) (processed_count : nat) : M nat :=
  for_each (split_dir input_dir output_base_dir) items processed_count.

(** [process_directory_recursively(input_dir, output_base_dir)],
    lines 57-92. [os.walk] is a generator; it is taken here by the listing
    of the tree as it stands when the job starts, which is what the loop
    sees as long as no output lands in an input directory still to be
    visited. *)
Definition process_directory_recursively (input_dir output_base_dir : string) : M nat :=
  t ← get_fs ;
  split_dirs input_dir output_base_dir (os_walk E t input_dir) 0.

End SplitVideoAudio.

(** ** A small world to run the jobs in *)

Module Sample.

Definition home : list string := ["home"; "u"].

(** [/home/u/in] holds [a/b/c/clip_audio.wav], [talk.MP3], the video
    [a/VIDEO.MP4] and the empty directory [empty]. *)
Definition tree0 : tree :=
  list_to_map
    [ (["home"], Dir); (["home"; "u"], Dir); (["home"; "u"; "in"], Dir);
      (["home"; "u"; "in"; "a"], Dir); (["home"; "u"; "in"; "a"; "b"], Dir);
      (["home"; "u"; "in"; "a"; "b"; "c"], Dir);
      (["home"; "u"; "in"; "a"; "b"; "c"; "clip_audio.wav"], File "RIFF");
      (["home"; "u"; "in"; "talk.MP3"], File "ID3");
      (["home"; "u"; "in"; "notes.txt"], File "n");
      (["home"; "u"; "in"; "a"; "VIDEO.MP4"], File "mp4");
      (["home"; "u"; "in"; "a"; "bad.mp4"], File "");
      (["home"; "u"; "in"; "empty"], Dir) ].

(** Inference says "hello world" for the clip and fails on the talk; the
    demuxer fails on [bad.mp4]; the file system has no faults. *)
Definition env0 : Env := {|
  cwd := home;
  whisper_load_model := λ _, None;
  whisper_transcribe := λ audio_file _,
    if bool_decide (audio_file = "in/a/b/c/clip_audio.wav") then Ok " hello world"
    else Raise (CollaboratorError "decode");
  ffmpeg := λ cmd,
    if bool_decide (cmd !! 2 = Some "in/a/bad.mp4") then Raise (CalledProcessError cmd)
    else Ok "stream";
  mkdir_fault := λ _, false;
  open_fault := λ _, false;
  write_fault := λ _, false;
|}.

Definition start : state := {| fs := tree0; log := [] |}.

(** The same world, where the sidecar of the clip cannot be opened for
    writing next to the clip. *)
Definition env1 : Env := {|
  cwd := home;
  whisper_load_model := whisper_load_model env0;
  whisper_transcribe := whisper_transcribe env0;
  ffmpeg := ffmpeg env0;
  mkdir_fault := λ _, false;
  open_fault := λ c, bool_decide (c = ["home"; "u"; "in"; "a"; "b"; "c"; "clip_audio.json"]);
  write_fault := λ _, false;
|}.

End Sample.

(** ** What is observed of a run *)

(** The collaborator invocations among a list of events, in order. *)
Definition calls_of (l : list event) : list call :=
  omap (λ ev, match ev with Invoke c => Some c | _ => None end) l.

(** The events a run added to the log it started from. *)
Definition new_events (s s' : state) : list event := drop (length (log s)) (log s').

Definition same_kind (n n' : node) : Prop :=
  match n, n' with
  | Dir, Dir => True
  | File _, File _ => True
  | _, _ => False
  end.

(** [t'] has every path of [t], each still a file or still a directory. *)
Definition extends (t t' : tree) : Prop :=
  ∀ c n, t !! c = Some n → ∃ n', t' !! c = Some n' ∧ same_kind n n'.

(** Nothing is ever removed from the tree or from the log; [P] holds of the
    events that were added. *)
Definition grows_with (P : event → Prop) (s s' : state) : Prop :=
  extends (fs s) (fs s') ∧ ∃ added, log s' = log s ++ added ∧ Forall P added.

Definition adds {A} (P : event → Prop) (m : M A) : Prop := ∀ s, grows_with P s (m s).2.

Definition any_event (ev : event) : Prop := True.

Definition no_call (ev : event) : Prop :=
  match ev with Invoke _ => False | _ => True end.

Abbreviation grows := (grows_with any_event).
Abbreviation monotone := (adds any_event).

(** The verdict lines of the split job among a list of events: the input
    file and whether it was processed. *)
Definition verdicts (l : list event) : list (string * bool) :=
  omap (λ ev, match ev with
              | Print (Processed f) => Some (f, true)
              | Print (ErrorProcessing f _) => Some (f, false)
              | _ => None
              end) l.

Definition no_verdict (ev : event) : Prop :=
  match ev with
  | Print (Processed _) | Print (ErrorProcessing _ _) => False
  | _ => True
  end.

Definition count_ok (vs : list (string * bool)) : nat :=
  length (filter (λ v, v.2 = true) vs).

(** The [(root, file)] pairs the split job selects, in the order of the walk. *)
Definition find_videos (items : list (string * list string * list string))
  : list (string * string) :=
  flat_map (λ item : string * list string * list string,
              (λ file, (item.1.1, file)) <$> filter (λ file, is_mp4 file = true) item.2)
           items.

(** Both demux invocations for [input_file] into [current_output_dir]
    succeed. *)
Definition both_demuxed (E : Env) (current_output_dir input_file : string) : Prop :=
  let od := effective_output_dir input_file (Some current_output_dir) in
  (∃ content, ffmpeg E (video_cmd input_file (video_output_of od input_file)) = Ok content)
  ∧ (∃ content, ffmpeg E (audio_cmd input_file (audio_output_of od input_file)) = Ok content).

(** The verdict [v] is the one of the selected file [rf]: it names its
    input file, and a file reported as processed had both its streams
    extracted into its mirrored directory, which is there in [t]. *)
Definition verdict_for (E : Env) (input_dir output_dir : string) (t : tree)
    (rf : string * string) (v : string * bool) : Prop :=
  v.1 = PosixPath.join rf.1 rf.2
  ∧ (v.2 = true →
     ∃ current_output_dir,
       mirrored_dir E input_dir output_dir rf.1 = Some current_output_dir
       ∧ both_demuxed E current_output_dir (PosixPath.join rf.1 rf.2)
       ∧ (current_output_dir ≠ "" → exists_in E t current_output_dir = true)).

(** The audio files a run of the transcribe job that starts in [s] finds. *)
Definition enumerated_audio (E : Env) (input_dir output_dir : string) (s : state)
  : list (string * string) :=
  find_audio_files E (fs (ensure_dir E output_dir s).2) input_dir.

(** [open(p, 'w')] will succeed on [t]. *)
Definition openable (E : Env) (t : tree) (p : string) : bool :=
  negb (Str.falsy p)
  && negb (is_dir_node (node_at t (resolve E p)))
  && is_dir_node (node_at t (removelast (resolve E p)))
  && negb (open_fault E (resolve E p)).

(** [open(p, 'w')] and the write that follows will succeed on [t]. *)
Definition writable (E : Env) (t : tree) (p : string) : bool :=
  openable E t p && negb (write_fault E (resolve E p)).

(** Opening [p] for writing is refused on [t] for a reason that no later
    write or mkdir takes away. *)
Definition blocked (E : Env) (t : tree) (p : string) : Prop :=
  Str.falsy p = true
  ∨ open_fault E (resolve E p) = true
  ∨ ∃ x, node_at t (removelast (resolve E p)) = Some (File x).

(** The text the inference gives for a file that exists. *)
Definition heard (E : Env) (audio_file language : string) : string :=
  match whisper_load_model E "tiny" with
  | Some _ => ""
  | None =>
      match whisper_transcribe E audio_file language with
      | Ok text => text
      | Raise _ => ""
      end
  end.

(** The file [rf] is settled in the tree [t]: its mirrored directory is
    there, and either its text file is there, or its input is there and the
    inference gives nothing for it or its text file cannot be opened. *)
Definition settled (E : Env) (input_dir output_dir : string) (t : tree)
    (rf : string * string) : Prop :=
  ∃ current_output_dir,
    mirrored_dir E input_dir output_dir rf.1 = Some current_output_dir
    ∧ exists_in E t current_output_dir = true
    ∧ (exists_in E t (output_file_of current_output_dir rf.2) = true
       ∨ (exists_in E t (PosixPath.join rf.1 rf.2) = true
          ∧ (heard E (PosixPath.join rf.1 rf.2) "en" = ""
             ∨ blocked E t (output_file_of current_output_dir rf.2)))).

(** [s] after printing the line [l]. *)
Definition say (l : line) (s : state) : state :=
  {| fs := fs s; log := log s ++ [Print l] |}.

(** Every path of the tree lies in a directory of the tree. *)
Definition well_formed (t : tree) : bool :=
  forallb (λ kn : list string * node, bool_decide (node_at t (removelast kn.1) = Some Dir))
          (map_to_list t).

(** The audio files of [t'] are files of [t], with the content they have
    there. *)
Definition keeps_audio (t t' : tree) : Prop :=
  ∀ c n x, t' !! (c ++ [n]) = Some (File x) → is_audio n = true →
           t !! (c ++ [n]) = Some (File x).

(** From a well-formed tree [t], [t'] is well formed again and has no audio
    file of its own. *)
Definition tidy (t t' : tree) : Prop :=
  well_formed t = true → well_formed t' = true ∧ keeps_audio t t'.

(** The computation [m] keeps every tree tidy. *)
Definition keeps {A} (m : M A) : Prop := ∀ s, tidy (fs s) (fs (m s).2).

(** ** Two statements of the specification, as it words them *)

(** "Whenever the per-file transcription operation returns (including the
    empty-string sentinel), the batch persists the outputs and increments
    the processed count": for one file whose text is not there yet and
    whose two output files the tree accepts. *)
Definition persists_whenever_transcription_returns : Prop :=
  ∀ (E : Env) (current_output_dir root file : string) (n : nat) (s s1 : state) (text : string),
    let output_file := output_file_of current_output_dir file in
    let json_output := json_output_of current_output_dir file in
    exists_in E (fs s) output_file = false →
    transcribe_audio_with_whisper E (PosixPath.join root file) "en" s = (Ok text, s1) →
    writable E (fs s) output_file = true →
    writable E (<[resolve E output_file := File text]> (fs s)) json_output = true →
    ∃ s', transcribe_and_save E current_output_dir root file n s = (Ok (n + 1), s')
          ∧ is_Some (fs s' !! resolve E output_file)
          ∧ is_Some (fs s' !! resolve E json_output).

(** "For every input subdirectory d there exists, after processing, a
    corresponding output subdirectory at the same relative path", for each
    of the two jobs. *)
Definition transcribe_job_mirrors_every_directory : Prop :=
  ∀ (E : Env) (input_dir output_dir : string) (s s' : state) (n : nat),
    process_audio_directory E input_dir output_dir s = (Ok n, s') →
    ∀ root dirs files current_output_dir,
      (root, dirs, files) ∈ os_walk E (fs s) input_dir →
      mirrored_dir E input_dir output_dir root = Some current_output_dir →
      exists_in E (fs s') current_output_dir = true.

Definition split_job_mirrors_every_directory : Prop :=
  ∀ (E : Env) (input_dir output_base_dir : string) (s s' : state) (n : nat),
    process_directory_recursively E input_dir output_base_dir s = (Ok n, s') →
    ∀ root dirs files current_output_dir,
      (root, dirs, files) ∈ os_walk E (fs s) input_dir →
      mirrored_dir E input_dir output_base_dir root = Some current_output_dir →
      exists_in E (fs s') current_output_dir = true.

(** * Properties *)

(** ** The library functions on a few inputs *)

Example lower_upper_case : Str.lower "VIDEO.MP4" = "video.mp4".
Proof. reflexivity. Qed.

Example split_nested : PosixPath.split "a/b/c.mp4" = ("a/b", "c.mp4").
Proof. reflexivity. Qed.

Example split_at_root : PosixPath.split "/c.mp4" = ("/", "c.mp4").
Proof. reflexivity. Qed.

Example split_bare_name : PosixPath.split "c.mp4" = ("", "c.mp4").
Proof. reflexivity. Qed.

Example split_trailing_sep : PosixPath.split "a//b/" = ("a//b", "").
Proof. reflexivity. Qed.

Example splitext_plain : PosixPath.splitext "clip_audio.wav" = ("clip_audio", ".wav").
Proof. reflexivity. Qed.

Example splitext_leading_dot : PosixPath.splitext ".mp3" = (".mp3", "").
Proof. reflexivity. Qed.

Example splitext_last_dot : PosixPath.splitext "a/..x.tar.gz" = ("a/..x.tar", ".gz").
Proof. reflexivity. Qed.

Example splitext_dot_in_directory : PosixPath.splitext "a.b/c" = ("a.b/c", "").
Proof. reflexivity. Qed.

Example join_plain_names : PosixPath.join "a" "b" = "a/b".
Proof. reflexivity. Qed.

Example join_after_sep : PosixPath.join "a/" "b" = "a/b".
Proof. reflexivity. Qed.

Example join_empty_head : PosixPath.join "" "b" = "b".
Proof. reflexivity. Qed.

Example join_absolute_tail : PosixPath.join "a" "/b" = "/b".
Proof. reflexivity. Qed.

Example relpath_below : PosixPath.relpath ["home"; "u"] "in/a/b" "in" = Some "a/b".
Proof. reflexivity. Qed.

Example relpath_same : PosixPath.relpath ["home"; "u"] "in" "in" = Some ".".
Proof. reflexivity. Qed.

Example relpath_normalises : PosixPath.relpath ["home"; "u"] "./in/../in/s" "in/" = Some "s".
Proof. reflexivity. Qed.

Example relpath_outside : PosixPath.relpath ["home"; "u"] "/x/y" "in" = Some "../../../x/y".
Proof. reflexivity. Qed.

Example relpath_empty : PosixPath.relpath ["home"; "u"] "" "in" = None.
Proof. reflexivity. Qed.

Example escape_controls :
  Json.escape (String Json.dquote (String Json.backslash (String Json.newline
     (String (ascii_of_nat 1) (String (ascii_of_nat 233) "a")))))
  = String Json.backslash (String Json.dquote (String Json.backslash (String Json.backslash
      (String Json.backslash "n" +:+ String Json.backslash "u0001"
       +:+ String Json.backslash "u00e9" +:+ "a")))).
Proof. reflexivity. Qed.

Example dumps_sidecar :
  Json.dumps_indent2 (sidecar "in/clip_audio.wav" " hello")
  = "{" +:+ String Json.newline "  "
    +:+ String Json.dquote "audio_file" +:+ String Json.dquote ": "
    +:+ String Json.dquote "in/clip_audio.wav" +:+ String Json.dquote ","
    +:+ String Json.newline "  "
    +:+ String Json.dquote "transcription" +:+ String Json.dquote ": "
    +:+ String Json.dquote " hello" +:+ String Json.dquote ","
    +:+ String Json.newline "  "
    +:+ String Json.dquote "language" +:+ String Json.dquote ": "
    +:+ String Json.dquote "en" +:+ String Json.dquote (String Json.newline "}").
Proof. reflexivity. Qed.

Example loads_refuses_control_character :
  Json.loads ("{" +:+ String Json.dquote "a" +:+ String Json.dquote ": "
              +:+ String Json.dquote (String (ascii_of_nat 1) "")
              +:+ String Json.dquote "}") = None.
Proof. reflexivity. Qed.

Example walk_of_the_sample :
  os_walk Sample.env0 Sample.tree0 "in"
  = [("in", ["empty"; "a"], ["notes.txt"; "talk.MP3"]);
     ("in/empty", [], []);
     ("in/a", ["b"], ["bad.mp4"; "VIDEO.MP4"]);
     ("in/a/b", ["c"], []);
     ("in/a/b/c", [], ["clip_audio.wav"])].
Proof. vm_compute. reflexivity. Qed.

Example makedirs_makes_the_parents :
  let r := makedirs Sample.env0 "out/a/b" Sample.start in
  r.1 = Ok tt
  ∧ new_events Sample.start r.2
    = [MadeDir ["home"; "u"; "out"]; MadeDir ["home"; "u"; "out"; "a"];
       MadeDir ["home"; "u"; "out"; "a"; "b"]].
Proof. vm_compute. split; reflexivity. Qed.

Example makedirs_of_the_empty_path :
  (makedirs Sample.env0 "" Sample.start).1 = Raise (FileNotFoundError "makedirs").
Proof. reflexivity. Qed.

(** ** Strings *)

Lemma str_app_nil_l (s : string) : "" +:+ s = s.
Proof. reflexivity. Qed.

Lemma str_app_cons (a : ascii) (s t : string) : String a s +:+ t = String a (s +:+ t).
Proof. reflexivity. Qed.

Lemma str_app_nil_r (s : string) : s +:+ "" = s.
Proof. induction s as [|a s IH]; [done|]. by rewrite str_app_cons, IH. Qed.

Lemma str_app_assoc (a b c : string) : (a +:+ b) +:+ c = a +:+ (b +:+ c).
Proof. induction a as [|x a IH]; [done|]. by rewrite !str_app_cons, IH. Qed.

Lemma str_app_eq_nil (a b : string) : a +:+ b = "" → a = "" ∧ b = "".
Proof. destruct a; [by rewrite str_app_nil_l|by rewrite str_app_cons]. Qed.

Lemma falsy_true (s : string) : Str.falsy s = true ↔ s = "".
Proof. unfold Str.falsy. by rewrite bool_decide_eq_true. Qed.

Lemma falsy_false (s : string) : Str.falsy s = false ↔ s ≠ "".
Proof. unfold Str.falsy. by rewrite bool_decide_eq_false. Qed.

Lemma endswith_spec (s suf : string) :
  Str.endswith s suf = true ↔ ∃ stem, s = stem +:+ suf.
Proof.
  induction s as [|a s IH]; simpl.
  - destruct (decide ("" = suf)) as [<-|Hne]; split; try done.
    + by exists "".
    + intros [stem Hs]. symmetry in Hs. apply str_app_eq_nil in Hs as [_ ->]. done.
  - destruct (decide (String a s = suf)) as [<-|Hne].
    + split; [|done]. by exists "".
    + rewrite IH. split.
      * intros [stem ->]. by exists (String a stem).
      * intros [[|b stem] Hs]; [by rewrite str_app_nil_l in Hs|].
        rewrite str_app_cons in Hs. injection Hs as -> ->. by exists stem.
Qed.

Lemma endswith_any_spec (s : string) (sufs : list string) :
  Str.endswith_any s sufs = true ↔ ∃ stem suf, suf ∈ sufs ∧ s = stem +:+ suf.
Proof.
  unfold Str.endswith_any. rewrite existsb_exists. split.
  - intros (suf & Hin & [stem ->]%endswith_spec). exists stem, suf.
    by rewrite list_elem_of_In.
  - intros (stem & suf & Hin & ->). exists suf. rewrite <-list_elem_of_In.
    split; [done|]. apply endswith_spec. by exists stem.
Qed.

(** ** Paths *)

Section PathFacts.
Import PosixPath.

Lemma has_sep_app (a b : string) : has_sep (a +:+ b) = has_sep a || has_sep b.
Proof.
  induction a as [|x a IH]; [done|].
  rewrite str_app_cons. simpl. by rewrite IH, orb_assoc.
Qed.

Lemma isabs_has_sep (p : string) : has_sep p = false → isabs p = false.
Proof. destruct p as [|c p]; simpl; [done|]. by intros [-> _]%orb_false_elim. Qed.

Lemma cut_last_sep_spec (p h t : string) :
  cut_last_sep p = (h, t) →
  p = h +:+ t ∧ has_sep t = false ∧ (h = "" ∨ ends_with_sep h = true).
Proof.
  revert h t. induction p as [|c p IH]; intros h t; simpl.
  - intros [= <- <-]. auto.
  - destruct (cut_last_sep p) as [h' t'] eqn:Hcut.
    destruct (IH h' t' eq_refl) as (-> & Ht & Hh).
    destruct (is_sep c) eqn:Hc.
    + intros [= <- <-]. split_and!; [done..|]. right.
      destruct Hh as [->|Hh]; simpl; [done|]. by destruct h'.
    + case_bool_decide as Hh'.
      * intros [= <- <-]. subst h'. simpl. rewrite Hc, Ht. auto.
      * intros [= <- <-]. split_and!; [done..|]. right.
        destruct Hh as [->|Hh]; [done|]. simpl. by destruct h'.
Qed.

Lemma split_tail_no_sep (p : string) : has_sep (split p).2 = false.
Proof.
  unfold split. destruct (cut_last_sep p) as [h t] eqn:Hcut.
  by apply cut_last_sep_spec in Hcut as (_ & ? & _).
Qed.

Lemma cut_last_sep_no_sep (t : string) : has_sep t = false → cut_last_sep t = ("", t).
Proof.
  induction t as [|c t IH]; simpl; [done|].
  intros [-> Ht]%orb_false_elim. by rewrite (IH Ht).
Qed.

Lemma cut_last_dot_spec (t a e : string) : cut_last_dot t = Some (a, e) → t = a +:+ e.
Proof.
  revert a e. induction t as [|c t IH]; intros a e; simpl; [done|].
  destruct (cut_last_dot t) as [[a' e']|].
  - intros [= <- <-]. by rewrite str_app_cons, <-(IH a' e').
  - case_bool_decide; [|done]. by intros [= <- <-].
Qed.

(** [root + ext == p] (the documented contract of [splitext]). *)
Lemma splitext_app (p : string) : (splitext p).1 +:+ (splitext p).2 = p.
Proof.
  unfold splitext. destruct (cut_last_sep p) as [h t] eqn:Hcut.
  apply cut_last_sep_spec in Hcut as (-> & _ & _).
  destruct (cut_last_dot t) as [[a e]|] eqn:Hdot; simpl; [|by rewrite str_app_nil_r].
  apply cut_last_dot_spec in Hdot as ->.
  destruct (all_dots a); simpl; [by rewrite str_app_nil_r|by rewrite str_app_assoc].
Qed.

Lemma splitext_no_sep (t : string) : has_sep t = false → has_sep (splitext t).1 = false.
Proof.
  intros Ht. rewrite <-(splitext_app t), has_sep_app in Ht.
  by apply orb_false_elim in Ht as [? _].
Qed.

Lemma ends_with_sep_app (a : string) :
  ends_with_sep a = true → ∃ a', a = a' +:+ "/".
Proof.
  induction a as [|c a IH]; simpl; [done|]. destruct a as [|d a].
  - unfold is_sep. rewrite bool_decide_eq_true. intros ->. by exists "".
  - intros [a' Ha]%IH. exists (String c a'). by rewrite str_app_cons, <-Ha.
Qed.

Lemma join_plain (d n : string) :
  d ≠ "" → ends_with_sep d = false → isabs n = false → join d n = d +:+ "/" +:+ n.
Proof.
  intros Hd Hs Hn. unfold join. rewrite Hn, Hs. simpl.
  by apply falsy_false in Hd as ->.
Qed.

Lemma split_sep_no_sep (n : string) : has_sep n = false → split_sep n = [n].
Proof.
  induction n as [|c n IH]; simpl; [done|].
  intros [-> Hn]%orb_false_elim. by rewrite (IH Hn).
Qed.

Lemma split_sep_nonempty (a : string) : split_sep a ≠ [].
Proof.
  destruct a as [|c a]; simpl; [done|].
  destruct (is_sep c); [done|]. by destruct (split_sep a).
Qed.

Lemma split_sep_app (a b : string) :
  split_sep (a +:+ String sep b) = split_sep a ++ split_sep b.
Proof.
  induction a as [|c a IH].
  - done.
  - rewrite str_app_cons. simpl. rewrite IH.
    destruct (is_sep c); [done|].
    pose proof (split_sep_nonempty a). by destruct (split_sep a).
Qed.

Lemma split_sep_snoc_sep (a n : string) :
  has_sep n = false →
  split_sep ((a +:+ "/") +:+ n) = removelast (split_sep (a +:+ "/")) ++ [n].
Proof.
  intros Hn. rewrite str_app_assoc. change ("/" +:+ n) with (String sep n).
  change (a +:+ "/") with (a +:+ String sep "").
  rewrite !split_sep_app, (split_sep_no_sep n Hn). simpl.
  by rewrite removelast_last.
Qed.

Lemma norm_step_valid (acc : list string) (n : string) :
  valid_name n = true → norm_step acc n = acc ++ [n].
Proof.
  unfold valid_name, norm_step. intros Hn.
  apply andb_true_iff in Hn as [[[H1 H2]%andb_true_iff H3]%andb_true_iff _].
  apply negb_true_iff in H1, H2, H3. by rewrite H1, H2, H3.
Qed.

Lemma fold_norm_snoc (acc : list string) (xs : list string) (n : string) :
  valid_name n = true →
  fold_left norm_step (xs ++ [n]) acc = fold_left norm_step xs acc ++ [n].
Proof. intros Hn. rewrite fold_left_app. simpl. by apply norm_step_valid. Qed.

Lemma fold_norm_snoc_empty (acc : list string) (xs : list string) :
  fold_left norm_step (xs ++ [""]) acc = fold_left norm_step xs acc.
Proof. by rewrite fold_left_app. Qed.

Lemma valid_name_no_sep (n : string) : valid_name n = true → has_sep n = false.
Proof. unfold valid_name. intros [_ ?%negb_true_iff]%andb_true_iff. done. Qed.

Lemma isabs_app (a b : string) : a ≠ "" → isabs (a +:+ b) = isabs a.
Proof. by destruct a. Qed.

(** The entry [n] of the directory [d] is one component below [d]. *)
Lemma abs_comps_join (cwd : list string) (d n : string) :
  valid_name n = true → abs_comps cwd (join d n) = abs_comps cwd d ++ [n].
Proof.
  intros Hn. pose proof (valid_name_no_sep n Hn) as Hsep.
  unfold join. rewrite (isabs_has_sep n Hsep). simpl.
  destruct (Str.falsy d) eqn:Hd.
  - apply falsy_true in Hd as ->. unfold abs_comps.
    rewrite (isabs_has_sep n Hsep), (split_sep_no_sep n Hsep). simpl.
    by rewrite norm_step_valid.
  - apply falsy_false in Hd. unfold abs_comps.
    destruct (ends_with_sep d) eqn:Hs.
    + rewrite isabs_app by done.
      apply ends_with_sep_app in Hs as [a ->].
      rewrite split_sep_snoc_sep by done.
      rewrite fold_norm_snoc by done. f_equal.
      change (a +:+ "/") with (a +:+ String sep "").
      rewrite split_sep_app. simpl. rewrite removelast_last.
      by rewrite fold_norm_snoc_empty.
    + rewrite isabs_app by done.
      change (String sep n) with (String sep n).
      rewrite split_sep_app, (split_sep_no_sep n Hsep).
      by rewrite fold_norm_snoc.
Qed.

End PathFacts.

(** ** The monad *)

Lemma bind_ok {A B} (m : M A) (k : A → M B) (s s' : state) (a : A) :
  m s = (Ok a, s') → (m ≫= k) s = k a s'.
Proof. intros H. unfold mbind, M_bind. by rewrite H. Qed.

Lemma bind_raise {A B} (m : M A) (k : A → M B) (s s' : state) (e : exn) :
  m s = (Raise e, s') → (m ≫= k) s = (Raise e, s').
Proof. intros H. unfold mbind, M_bind. by rewrite H. Qed.

Lemma try_ok {A} (m : M A) (h : exn → M A) (s s' : state) (a : A) :
  m s = (Ok a, s') → try_except m h s = (Ok a, s').
Proof. intros H. unfold try_except. by rewrite H. Qed.

Lemma try_raise {A} (m : M A) (h : exn → M A) (s s' : state) (e : exn) :
  m s = (Raise e, s') → try_except m h s = h e s'.
Proof. intros H. unfold try_except. by rewrite H. Qed.

(** ** Growth of the tree and of the log *)

Lemma same_kind_refl (n : node) : same_kind n n.
Proof. by destruct n. Qed.

Lemma same_kind_trans (a b c : node) : same_kind a b → same_kind b c → same_kind a c.
Proof. by destruct a, b, c. Qed.

Lemma extends_refl (t : tree) : extends t t.
Proof. intros c n Hc. exists n. split; [done|apply same_kind_refl]. Qed.

Lemma extends_trans (t1 t2 t3 : tree) : extends t1 t2 → extends t2 t3 → extends t1 t3.
Proof.
  intros H12 H23 c n Hc. destruct (H12 c n Hc) as (n2 & Hc2 & Hk).
  destruct (H23 c n2 Hc2) as (n3 & Hc3 & Hk'). exists n3.
  split; [done|]. by eapply same_kind_trans.
Qed.

Lemma extends_insert_fresh (t : tree) (c : list string) (n : node) :
  t !! c = None → extends t (<[c := n]> t).
Proof.
  intros Hc c' n' Hc'. exists n'. split; [|apply same_kind_refl].
  rewrite lookup_insert_ne; [done|]. intros ->. congruence.
Qed.

Lemma extends_insert_file (t : tree) (c : list string) (x : string) :
  t !! c ≠ Some Dir → extends t (<[c := File x]> t).
Proof.
  intros Hc c' n' Hc'. destruct (decide (c = c')) as [->|Hne].
  - exists (File x). rewrite lookup_insert_eq. split; [done|].
    destruct n'; [done|congruence].
  - exists n'. rewrite lookup_insert_ne by done. split; [done|apply same_kind_refl].
Qed.

Lemma node_at_lookup (t : tree) (c : list string) :
  c ≠ [] → node_at t c = t !! c.
Proof. by destruct c. Qed.

Lemma extends_node_at (t t' : tree) (c : list string) (n : node) :
  extends t t' → node_at t c = Some n → ∃ n', node_at t' c = Some n' ∧ same_kind n n'.
Proof.
  intros Hext. destruct c as [|x c]; simpl.
  - intros [= <-]. by exists Dir.
  - apply Hext.
Qed.

Lemma extends_dir (t t' : tree) (c : list string) :
  extends t t' → node_at t c = Some Dir → node_at t' c = Some Dir.
Proof.
  intros Hext Hc. destruct (extends_node_at _ _ _ _ Hext Hc) as (n' & Hn & Hk).
  by destruct n'.
Qed.

Lemma extends_file (t t' : tree) (c : list string) (x : string) :
  extends t t' → node_at t c = Some (File x) → ∃ y, node_at t' c = Some (File y).
Proof.
  intros Hext Hc. destruct (extends_node_at _ _ _ _ Hext Hc) as (n' & Hn & Hk).
  destruct n' as [y|]; [by exists y|done].
Qed.

Lemma extends_exists (E : Env) (t t' : tree) (p : string) :
  extends t t' → exists_in E t p = true → exists_in E t' p = true.
Proof.
  unfold exists_in. intros Hext [Hp Hn]%andb_true_iff. rewrite Hp. simpl.
  apply bool_decide_eq_true in Hn as [n Hn]. apply bool_decide_eq_true.
  destruct (extends_node_at _ _ _ _ Hext Hn) as (n' & -> & _). by eexists.
Qed.

Lemma new_events_app (s s' : state) (l : list event) :
  log s' = log s ++ l → new_events s s' = l.
Proof. intros H. unfold new_events. by rewrite H, drop_app_length. Qed.

Section Adds.
Context (P : event → Prop).

Lemma grows_with_refl (s : state) : grows_with P s s.
Proof. split; [apply extends_refl|]. exists []. by rewrite app_nil_r. Qed.

Lemma grows_with_trans (s1 s2 s3 : state) :
  grows_with P s1 s2 → grows_with P s2 s3 → grows_with P s1 s3.
Proof.
  intros [H12 (a1 & L12 & F1)] [H23 (a2 & L23 & F2)].
  split; [by eapply extends_trans|].
  exists (a1 ++ a2). split; [by rewrite L23, L12, app_assoc|by apply Forall_app].
Qed.

Lemma adds_ret {A} (a : A) : adds P (mret a : M A).
Proof. intros s. apply grows_with_refl. Qed.

Lemma adds_raise {A} (e : exn) : adds P (raise e : M A).
Proof. intros s. apply grows_with_refl. Qed.

Lemma adds_bind {A B} (m : M A) (k : A → M B) :
  adds P m → (∀ a, adds P (k a)) → adds P (m ≫= k).
Proof.
  intros Hm Hk s. unfold mbind, M_bind. specialize (Hm s).
  destruct (m s) as [[a|e] s']; simpl in *; [|done].
  eapply grows_with_trans; [done|apply Hk].
Qed.

Lemma adds_try {A} (m : M A) (h : exn → M A) :
  adds P m → (∀ e, adds P (h e)) → adds P (try_except m h).
Proof.
  intros Hm Hh s. unfold try_except. specialize (Hm s).
  destruct (m s) as [[a|e] s']; simpl in *; [done|].
  eapply grows_with_trans; [done|apply Hh].
Qed.

Lemma adds_get_fs : adds P get_fs.
Proof. intros s. apply grows_with_refl. Qed.

Lemma adds_emit (ev : event) : P ev → adds P (emit ev).
Proof. intros Hev s. split; [apply extends_refl|]. exists [ev]. by split; [|constructor]. Qed.

Lemma adds_print (l : line) : P (Print l) → adds P (print l).
Proof. apply adds_emit. Qed.

Lemma adds_from_fs {A} (k : tree → M A) :
  (∀ s, grows_with P s (k (fs s) s).2) → adds P (get_fs ≫= k).
Proof. intros Hk s. apply Hk. Qed.

Lemma grows_with_insert (s : state) (t : tree) (evs : list event) :
  extends (fs s) t → Forall P evs →
  grows_with P s {| fs := t; log := log s ++ evs |}.
Proof. intros Hext Hevs. split; [done|]. by exists evs. Qed.

Lemma grows_with_put (s : state) (t : tree) :
  extends (fs s) t → grows_with P s {| fs := t; log := log s |}.
Proof. intros Hext. split; [done|]. exists []. simpl. by rewrite app_nil_r. Qed.

End Adds.

Create HintDb mono discriminated.
#[local] Hint Resolve adds_ret adds_raise adds_get_fs : mono.
#[local] Hint Extern 1 (adds _ (emit _)) => apply adds_emit; exact I : mono.
#[local] Hint Extern 1 (adds _ (print _)) => apply adds_print; exact I : mono.
#[local] Hint Extern 1 (adds _ (_ ≫= _)) => apply adds_bind; [|intros ?] : mono.
#[local] Hint Extern 1 (adds _ (try_except _ _)) => apply adds_try; [|intros ?] : mono.
#[local] Hint Extern 2 (adds _ (match ?x with _ => _ end)) => destruct x : mono.

Ltac mono := eauto 20 with mono.

(** The operations on the tree only add to it, and invoke no collaborator. *)
Section Growth.
Context (E : Env) (P : event → Prop).
Context (P_madedir : ∀ c, P (MadeDir c)) (P_wrote : ∀ c, P (Wrote c)).

Lemma adds_path_exists (p : string) : adds P (path_exists E p).
Proof. unfold path_exists. mono. Qed.

Lemma adds_mkdir (c : list string) : adds P (mkdir E c).
Proof.
  unfold mkdir. apply adds_from_fs. intros s.
  destruct (node_at (fs s) c) eqn:Hc; [apply grows_with_refl|].
  destruct (node_at (fs s) (removelast c)) as [[?|]|]; try apply grows_with_refl.
  destruct (mkdir_fault E c); [apply grows_with_refl|].
  apply (grows_with_insert P s (<[c := Dir]> (fs s)) [MadeDir c]); [|by constructor].
  apply extends_insert_fresh. by destruct c.
Qed.

Lemma adds_makedirs_at (rc : list string) : adds P (makedirs_at E rc).
Proof.
  induction rc as [|x rc IH]; simpl; [apply adds_mkdir|].
  apply adds_from_fs. intros s.
  assert (adds P (mkdir E (rev (x :: rc)))) as Hmk by apply adds_mkdir.
  case_bool_decide.
  - apply (adds_bind P (mret tt) (λ _, mkdir E (rev (x :: rc)))); [mono|done].
  - apply (adds_bind P (try_except (makedirs_at E rc) _) (λ _, mkdir E (rev (x :: rc))));
      [|done].
    apply adds_try; [done|]. intros []; mono.
Qed.

Lemma adds_makedirs (name : string) : adds P (makedirs E name).
Proof. unfold makedirs. destruct (Str.falsy name); [mono|apply adds_makedirs_at]. Qed.

Lemma adds_write_file (p content : string) : adds P (write_file E p content).
Proof.
  unfold write_file. destruct (Str.falsy p); [mono|].
  apply adds_from_fs. intros s.
  assert (∀ x, node_at (fs s) (resolve E p) ≠ Some Dir →
               extends (fs s) (<[resolve E p := File x]> (fs s))) as Hins.
  { intros x Hn. apply extends_insert_file. by destruct (resolve E p). }
  destruct (node_at (fs s) (resolve E p)) as [[?|]|] eqn:Hc; try apply grows_with_refl;
    (destruct (node_at (fs s) (removelast (resolve E p))) as [[?|]|];
     try apply grows_with_refl;
     destruct (open_fault E (resolve E p)); [apply grows_with_refl|];
     destruct (write_fault E (resolve E p));
     [ apply (grows_with_put P s (<[resolve E p := File ""]> (fs s))); by apply Hins
     | apply (grows_with_insert P s (<[resolve E p := File content]> (fs s))
                [Wrote (resolve E p)]); [by apply Hins|by constructor] ]).
Qed.

Lemma adds_deliver (cmd : list string) (content : string) :
  adds P (deliver E cmd content).
Proof.
  unfold deliver. apply adds_from_fs. intros s.
  destruct (Str.falsy _ || is_dir_node _ || negb _) eqn:Hc; [apply grows_with_refl|].
  apply orb_false_elim in Hc as [[_ Hd]%orb_false_elim _].
  apply (grows_with_insert P s (<[resolve E (List.last cmd "") := File content]> (fs s))
           [Wrote (resolve E (List.last cmd ""))]); [|by constructor].
  apply extends_insert_file.
  intros Hn. destruct (resolve E (List.last cmd "")); [done|]. simpl in Hd.
  by rewrite Hn in Hd.
Qed.

Lemma adds_ensure_dir (d : string) : adds P (ensure_dir E d).
Proof.
  unfold ensure_dir. apply adds_bind; [apply adds_path_exists|].
  intros []; simpl; [mono|apply adds_makedirs].
Qed.

Lemma adds_mirror (i o r : string) : adds P (mirror E i o r).
Proof. unfold mirror. mono. Qed.

End Growth.

#[local] Hint Resolve adds_path_exists adds_mirror : mono.
#[local] Hint Extern 1 (adds _ (mkdir _ _)) => apply adds_mkdir; intros; exact I : mono.
#[local] Hint Extern 1 (adds _ (makedirs _ _)) => apply adds_makedirs; intros; exact I : mono.
#[local] Hint Extern 1 (adds _ (ensure_dir _ _)) => apply adds_ensure_dir; intros; exact I : mono.
#[local] Hint Extern 1 (adds _ (write_file _ _ _)) =>
  apply adds_write_file; intros; exact I : mono.
#[local] Hint Extern 1 (adds _ (deliver _ _ _)) => apply adds_deliver; intros; exact I : mono.
#[local] Hint Extern 2 (adds _ (if ?b then _ else _)) => destruct b : mono.

Lemma monotone_subprocess_run (E : Env) (cmd : list string) : monotone (subprocess_run E cmd).
Proof. unfold subprocess_run. mono. Qed.

Lemma monotone_load_model (E : Env) (name : string) : monotone (load_model E name).
Proof. unfold load_model. mono. Qed.

Lemma monotone_model_transcribe (E : Env) (f l : string) : monotone (model_transcribe E f l).
Proof. unfold model_transcribe. mono. Qed.

#[local] Hint Resolve monotone_subprocess_run monotone_load_model
  monotone_model_transcribe : mono.

Lemma grows_with_weaken (P Q : event → Prop) (s s' : state) :
  (∀ ev, P ev → Q ev) → grows_with P s s' → grows_with Q s s'.
Proof.
  intros HPQ [Hext (added & Hlog & Hall)]. split; [done|]. exists added.
  split; [done|]. eapply Forall_impl; eauto.
Qed.

Lemma no_call_calls_of (l : list event) : Forall no_call l → calls_of l = [].
Proof.
  induction 1 as [|ev l Hev _ IH]; [done|].
  unfold calls_of in *. destruct ev; simpl in *; done.
Qed.

Lemma grows_with_new_events (P : event → Prop) (s s' : state) :
  grows_with P s s' → Forall P (new_events s s').
Proof. intros [_ (added & Hlog & Hall)]. by rewrite (new_events_app _ _ _ Hlog). Qed.

Lemma grows_with_log (P : event → Prop) (s s' : state) :
  grows_with P s s' → log s' = log s ++ new_events s s'.
Proof. intros [_ (added & Hlog & Hall)]. by rewrite (new_events_app _ _ _ Hlog). Qed.

(** ** Running the code *)

Ltac run :=
  unfold mbind, M_bind, mret, M_ret, raise, try_except, print, emit, get_fs, put_fs;
  simpl.

(** ** The transcriber *)

(** What [transcribe_audio_with_whisper] does, case by case. *)
Lemma transcribe_cases (E : Env) (audio_file language : string) (s : state) :
  transcribe_audio_with_whisper E audio_file language s =
    if exists_in E (fs s) audio_file then
      match whisper_load_model E "tiny" with
      | Some e =>
          (Ok "", {| fs := fs s;
                     log := log s ++ [Print (Processing audio_file); Print LoadingModel;
                                      Invoke (LoadModel "tiny"); Print (UnexpectedError e)] |})
      | None =>
          match whisper_transcribe E audio_file language with
          | Raise e =>
              (Ok "", {| fs := fs s;
                         log := log s ++ [Print (Processing audio_file); Print LoadingModel;
                                          Invoke (LoadModel "tiny");
                                          Print (Transcribing audio_file);
                                          Invoke (Transcribe audio_file language);
                                          Print (UnexpectedError e)] |})
          | Ok text =>
              (Ok text, {| fs := fs s;
                           log := log s ++ [Print (Processing audio_file); Print LoadingModel;
                                            Invoke (LoadModel "tiny");
                                            Print (Transcribing audio_file);
                                            Invoke (Transcribe audio_file language);
                                            Print (TranscriptionSuccessful (Str.take 50 text))] |})
          end
      end
    else
      (Ok "", {| fs := fs s;
                 log := log s ++ [Print (Processing audio_file);
                                  Print (AudioNotFound audio_file)] |}).
Proof.
  unfold transcribe_audio_with_whisper, path_exists, load_model, model_transcribe. run.
  destruct (exists_in E (fs s) audio_file); simpl.
  - destruct (whisper_load_model E "tiny"); simpl.
    + by rewrite <-!app_assoc.
    + destruct (whisper_transcribe E audio_file language); simpl; by rewrite <-!app_assoc.
  - by rewrite <-!app_assoc.
Qed.



(** ** The splitter *)

Lemma new_events_trans (P Q : event → Prop) (s1 s2 s3 : state) :
  grows_with P s1 s2 → grows_with Q s2 s3 →
  new_events s1 s3 = new_events s1 s2 ++ new_events s2 s3.
Proof.
  intros H12 H23. apply grows_with_log in H12 as L12. apply grows_with_log in H23 as L23.
  apply new_events_app. by rewrite L23, L12, app_assoc.
Qed.

Lemma calls_of_app (l1 l2 : list event) : calls_of (l1 ++ l2) = calls_of l1 ++ calls_of l2.
Proof. unfold calls_of. apply omap_app. Qed.

Lemma ensure_dir_quiet (E : Env) (d : string) (s : state) :
  grows_with no_call s (ensure_dir E d s).2.
Proof. by apply adds_ensure_dir. Qed.

(** [split_video_audio], step by step. *)
Lemma split_video_audio_unfold (E : Env) (input_file : string) (output_dir : option string)
    (s : state) :
  split_video_audio E input_file output_dir s =
    if exists_in E (fs s) input_file then
      let od := effective_output_dir input_file output_dir in
      let v := video_output_of od input_file in
      let a := audio_output_of od input_file in
      match ensure_dir E od s with
      | (Raise e, s1) => (Raise e, s1)
      | (Ok _, s1) =>
          match subprocess_run E (video_cmd input_file v) (say (ExtractingVideo v) s1) with
          | (Raise e, s2) => (Raise e, s2)
          | (Ok _, s2) =>
              match subprocess_run E (audio_cmd input_file a) (say (ExtractingAudio a) s2) with
              | (Raise e, s3) => (Raise e, s3)
              | (Ok _, s3) => (Ok (v, a), say ExtractionComplete s3)
              end
          end
      end
    else (Raise (FileNotFoundError ("Input file not found: " +:+ input_file)), s).
Proof.
  unfold split_video_audio, path_exists. run.
  destruct (exists_in E (fs s) input_file); simpl; [|done].
  destruct (ensure_dir E _ s) as [[[]|e] s1]; [|done].
  change {| fs := fs s1; log := log s1 ++ [Print ?l] |} with (say l s1).
  destruct (subprocess_run E (video_cmd _ _) _) as [[[]|e] s2]; [|done].
  change {| fs := fs s2; log := log s2 ++ [Print ?l] |} with (say l s2).
  by destruct (subprocess_run E (audio_cmd _ _) _) as [[[]|e] s3].
Qed.

(** A demux invocation that the collaborator fails leaves the tree alone. *)
Lemma subprocess_run_fails (E : Env) (cmd : list string) (e : exn) (s : state) :
  ffmpeg E cmd = Raise e →
  subprocess_run E cmd s = (Raise e, {| fs := fs s; log := log s ++ [Invoke (Run cmd)] |}).
Proof. intros H. unfold subprocess_run. run. by rewrite H. Qed.



Lemma ensure_dir_nonempty (E : Env) (d : string) (s s1 : state) :
  ensure_dir E d s = (Ok tt, s1) → d ≠ "".
Proof. intros H ->. by vm_compute in H. Qed.

Lemma cut_last_dot_ext (t a e : string) :
  PosixPath.cut_last_dot t = Some (a, e) → ∃ e', e = String "." e'.
Proof.
  revert a e. induction t as [|c t IH]; intros a e; simpl; [done|].
  destruct (PosixPath.cut_last_dot t) as [[a' e']|].
  - intros [= <- <-]. by eapply IH.
  - case_bool_decide as Hc; [|done]. intros [= <- <-]. rewrite Hc. by eexists.
Qed.

Lemma splitext_ext (p : string) :
  (PosixPath.splitext p).2 = "" ∨ ∃ e, (PosixPath.splitext p).2 = String "." e.
Proof.
  unfold PosixPath.splitext. destruct (PosixPath.cut_last_sep p) as [h t].
  destruct (PosixPath.cut_last_dot t) as [[a e]|] eqn:Hdot; [|by left].
  destruct (PosixPath.all_dots a); [by left|]. right. by eapply cut_last_dot_ext.
Qed.

Lemma base_of_not_abs (input_file suffix : string) :
  PosixPath.isabs suffix = false → PosixPath.isabs (base_of input_file +:+ suffix) = false.
Proof.
  intros Hs. unfold base_of.
  pose proof (splitext_no_sep _ (split_tail_no_sep input_file)) as Hb.
  destruct (PosixPath.splitext (PosixPath.split input_file).2).1 as [|c b]; [done|].
  simpl in *. by apply orb_false_elim in Hb as [-> _].
Qed.

(** The path [join] builds from a directory and the name of an output. *)
Lemma join_output (od input_file suffix : string) :
  od ≠ "" → PosixPath.isabs suffix = false →
  PosixPath.join od (base_of input_file +:+ suffix)
    = od +:+ (if PosixPath.ends_with_sep od then "" else "/") +:+ base_of input_file +:+ suffix.
Proof.
  intros Hod Hs. unfold PosixPath.join.
  rewrite (base_of_not_abs _ _ Hs). apply falsy_false in Hod as ->. simpl.
  by destruct (PosixPath.ends_with_sep od).
Qed.

(** C8: a successful split of an existing file returns exactly the two
    paths [outputDir/{base}_video.mp4] and [outputDir/{base}_audio.wav],
    where [base] is the file name without its extension and [outputDir] is
    the directory of the input file when the argument is absent. *)
Theorem split_returns_derived_paths (E : Env) (input_file : string)
    (output_dir : option string) (s s' : state) (video_file audio_file : string) :
  split_video_audio E input_file output_dir s = (Ok (video_file, audio_file), s') →
  let base := base_of input_file in
  let od := effective_output_dir input_file output_dir in
  let slash := if PosixPath.ends_with_sep od then "" else "/" in
  exists_in E (fs s) input_file = true
  ∧ video_file = PosixPath.join od (base +:+ "_video.mp4")
  ∧ audio_file = PosixPath.join od (base +:+ "_audio.wav")
  ∧ video_file = od +:+ slash +:+ base +:+ "_video.mp4"
  ∧ audio_file = od +:+ slash +:+ base +:+ "_audio.wav"
  ∧ (∃ ext, (PosixPath.split input_file).2 = base +:+ ext
            ∧ (ext = "" ∨ ∃ e, ext = String "." e))
  ∧ (output_dir = None → od = (PosixPath.split input_file).1)
  ∧ (∀ d, output_dir = Some d → d ≠ "" → od = d).
Proof.
  intros Hrun base od slash. rewrite split_video_audio_unfold in Hrun.
  destruct (exists_in E (fs s) input_file) eqn:Hex; [|done]. simpl in Hrun.
  fold od in Hrun.
  destruct (ensure_dir E od s) as [[[]|e] s1] eqn:Hdir; [|done].
  destruct (subprocess_run E (video_cmd _ _) _) as [[[]|e] s2]; [|done].
  destruct (subprocess_run E (audio_cmd _ _) _) as [[[]|e] s3]; [|done].
  injection Hrun as <- <- <-.
  pose proof (ensure_dir_nonempty _ _ _ _ Hdir) as Hod.
  split_and!; try done.
  - unfold video_output_of. by rewrite join_output.
  - unfold audio_output_of. by rewrite join_output.
  - exists (PosixPath.splitext (PosixPath.split input_file).2).2. split.
    + unfold base, base_of. by rewrite splitext_app.
    + apply splitext_ext.
  - by intros ->.
  - intros d -> Hd. unfold od, effective_output_dir. by apply falsy_false in Hd as ->.
Qed.

(** C8 in the sample world: the video of directory [a]. *)
Lemma split_returns_derived_paths_witness :
  ∃ s', split_video_audio Sample.env0 "in/a/VIDEO.MP4" (Some "out/a") Sample.start
          = (Ok ("out/a/VIDEO_video.mp4", "out/a/VIDEO_audio.wav"), s')
        ∧ "out/a/VIDEO_video.mp4" = "out/a" +:+ "/" +:+ "VIDEO" +:+ "_video.mp4".
Proof.
  assert ((split_video_audio Sample.env0 "in/a/VIDEO.MP4" (Some "out/a") Sample.start).1
          = Ok ("out/a/VIDEO_video.mp4", "out/a/VIDEO_audio.wav")) as Hres
    by (vm_compute; reflexivity).
  destruct (split_video_audio Sample.env0 "in/a/VIDEO.MP4" (Some "out/a") Sample.start)
    as [r s'] eqn:Hrun.
  simpl in Hres. subst r. exists s'. split; [reflexivity|].
  exact (proj1 (proj2 (proj2 (proj2
    (split_returns_derived_paths Sample.env0 "in/a/VIDEO.MP4" (Some "out/a") Sample.start s'
       "out/a/VIDEO_video.mp4" "out/a/VIDEO_audio.wav" Hrun))))).
Defined.

(** ** Selection of the files *)

(** One file of the split job: skipped unless selected; a selected file is
    split and leaves exactly one verdict line. *)
Lemma split_one_cases (E : Env) (current_output_dir root file : string) (n : nat) (s : state) :
  split_one E current_output_dir root file n s =
    if is_mp4 file then
      match split_video_audio E (PosixPath.join root file) (Some current_output_dir) s with
      | (Ok _, s1) => (Ok (n + 1), say (Processed (PosixPath.join root file)) s1)
      | (Raise e, s1) => (Ok n, say (ErrorProcessing (PosixPath.join root file) e) s1)
      end
    else (Ok n, s).
Proof.
  unfold split_one. destruct (is_mp4 file); [|done]. run.
  by destruct (split_video_audio E _ _ s) as [[?|?] ?].
Qed.

Lemma elem_of_find_audio_files (E : Env) (t : tree) (input_dir root file : string) :
  (root, file) ∈ find_audio_files E t input_dir
  ↔ ∃ dirs files, (root, dirs, files) ∈ os_walk E t input_dir
                  ∧ file ∈ files ∧ is_audio file = true.
Proof.
  unfold find_audio_files. rewrite list_elem_of_In, in_flat_map. split.
  - intros ([[r dirs] files] & Hitem & Hin). simpl in Hin.
    apply list_elem_of_In, list_elem_of_fmap in Hin as (f & [= -> ->] & Hf).
    apply list_elem_of_filter in Hf as [Hsel Hf].
    exists dirs, files. by rewrite list_elem_of_In.
  - intros (dirs & files & Hitem & Hf & Hsel). exists (root, dirs, files).
    split; [by apply list_elem_of_In|]. simpl.
    apply list_elem_of_In, list_elem_of_fmap. exists file. split; [done|].
    by apply list_elem_of_filter.
Qed.

(** C9: both jobs select files by a case-insensitive suffix test: the
    split job takes a file iff its lowercased name ends with [.mp4] (so
    [VIDEO.MP4] and [video.mp4] both), the transcribe job iff it ends with
    one of [_audio.wav], [.mp3], [.aac], [.flac]; the transcribe job collects
    exactly the walked files that pass, and the split job leaves the others
    alone and splits the ones that pass. *)
Theorem selection_by_lowercased_suffix :
  (∀ file, is_mp4 file = true ↔ ∃ stem, Str.lower file = stem +:+ ".mp4")
  ∧ (∀ file, is_audio file = true
             ↔ ∃ stem suf, suf ∈ ["_audio.wav"; ".mp3"; ".aac"; ".flac"]
                           ∧ Str.lower file = stem +:+ suf)
  ∧ is_mp4 "VIDEO.MP4" = true ∧ is_mp4 "video.mp4" = true
  ∧ (∀ E t input_dir root file,
       (root, file) ∈ find_audio_files E t input_dir
       ↔ ∃ dirs files, (root, dirs, files) ∈ os_walk E t input_dir
                       ∧ file ∈ files ∧ is_audio file = true)
  ∧ (∀ E current_output_dir root file n s,
       is_mp4 file = false → split_one E current_output_dir root file n s = (Ok n, s))
  ∧ (∀ E current_output_dir root file n s,
       is_mp4 file = true →
       split_one E current_output_dir root file n s =
         match split_video_audio E (PosixPath.join root file) (Some current_output_dir) s with
         | (Ok _, s1) => (Ok (n + 1), say (Processed (PosixPath.join root file)) s1)
         | (Raise e, s1) => (Ok n, say (ErrorProcessing (PosixPath.join root file) e) s1)
         end).
Proof.
  split_and!.
  - intros file. apply endswith_spec.
  - intros file. apply endswith_any_spec.
  - reflexivity.
  - reflexivity.
  - apply elem_of_find_audio_files.
  - intros E cod root file n s Hsel. by rewrite split_one_cases, Hsel.
  - intros E cod root file n s Hsel. by rewrite split_one_cases, Hsel.
Qed.

(** ** The sidecar: reading back what [json.dump] wrote *)

Section JsonFacts.
Import Json.

Lemma scan_escape_char (c : ascii) (r : string) :
  scan_string (escape_char c +:+ r) = cons_char c (scan_string r).
Proof. destruct c as [[] [] [] [] [] [] [] []]; reflexivity. Qed.

Lemma scan_escape (s rest : string) :
  scan_string (escape s +:+ String dquote rest) = Some (s, rest).
Proof.
  induction s as [|c s IH]; [done|]. simpl.
  by rewrite str_app_assoc, scan_escape_char, IH.
Qed.

Lemma encode_string_app (s rest : string) :
  encode_string s +:+ rest = String dquote (escape s +:+ String dquote rest).
Proof. unfold encode_string. by rewrite str_app_cons, str_app_assoc. Qed.

Lemma parse_encode_member (kv : string * string) (rest : string) :
  parse_member (encode_member kv +:+ rest) = Some (kv.1, kv.2, rest).
Proof.
  destruct kv as [k v]. unfold parse_member, encode_member. simpl fst. simpl snd.
  rewrite !str_app_assoc, encode_string_app. simpl.
  rewrite scan_escape. simpl.
  by rewrite str_app_assoc, str_app_cons, str_app_nil_l, scan_escape.
Qed.

Lemma skip_ws_member (kv : string * string) (rest : string) :
  skip_ws (encode_member kv +:+ rest) = encode_member kv +:+ rest.
Proof. done. Qed.

Lemma encode_members_cons (kv : string * string) (ms : list (string * string)) :
  ms ≠ [] →
  encode_members (kv :: ms)
  = encode_member kv +:+ "," +:+ String newline "  " +:+ encode_members ms.
Proof. by destruct ms. Qed.

Lemma encode_members_start (ms : list (string * string)) (rest : string) :
  ms ≠ [] → ∃ r, encode_members ms +:+ rest = String dquote r.
Proof.
  destruct ms as [|kv ms]; [done|]. intros _. destruct ms.
  - simpl. unfold encode_member. rewrite str_app_assoc, encode_string_app. by eexists.
  - rewrite encode_members_cons by done. unfold encode_member.
    rewrite !str_app_assoc, encode_string_app. by eexists.
Qed.

Lemma parse_encode_members (fuel : nat) (acc : gmap string string)
    (ms : list (string * string)) (rest : string) :
  ms ≠ [] → length ms ≤ fuel →
  parse_members fuel acc (encode_members ms +:+ String newline (String "}" rest))
  = Some (foldl (λ m kv, <[kv.1 := kv.2]> m) acc ms, rest).
Proof.
  revert fuel acc. induction ms as [|kv ms IH]; intros fuel acc Hne Hfuel; [done|].
  destruct fuel as [|fuel]; [simpl in Hfuel; lia|]. simpl in Hfuel.
  destruct ms as [|kv' ms].
  - simpl. by rewrite parse_encode_member.
  - rewrite encode_members_cons by done. cbn [parse_members].
    destruct (encode_members_start (kv' :: ms) (String newline (String "}" rest)))
      as [r Hr]; [done|].
    rewrite !str_app_assoc, parse_encode_member, Hr. simpl. rewrite <-Hr.
    rewrite IH; [done|done|lia].
Qed.

Lemma length_app_str (a b : string) :
  String.length (a +:+ b) = String.length a + String.length b.
Proof. induction a as [|c a IH]; [done|]. rewrite str_app_cons. simpl. by rewrite IH. Qed.

Lemma length_encode_members (ms : list (string * string)) :
  length ms ≤ String.length (encode_members ms).
Proof.
  induction ms as [|kv ms IH]; [done|]. destruct ms as [|kv' ms].
  - simpl. unfold encode_member, encode_string. simpl. lia.
  - rewrite encode_members_cons by done. rewrite !length_app_str.
    unfold encode_member at 1, encode_string. simpl in *. lia.
Qed.

(** Reading back what was dumped gives the dict that was dumped. *)
Lemma loads_dumps (d : list (string * string)) :
  loads (dumps_indent2 d) = Some (dict_of d).
Proof.
  destruct d as [|kv d]; [done|]. unfold loads, dumps_indent2.
  set (ms := kv :: d).
  set (text := "{" +:+ String newline "  " +:+ encode_members ms +:+ String newline "}").
  assert (length ms ≤ String.length text) as Hlen.
  { unfold text. rewrite !length_app_str. pose proof (length_encode_members ms). lia. }
  destruct (encode_members_start ms (String newline "}")) as [r Hr]; [done|].
  assert (text = String "{" (String newline (String " " (String " " (String dquote r)))))
    as Htext by (by rewrite <-Hr).
  remember (String.length text) as fuel eqn:Hfuel. clear Hfuel.
  rewrite Htext. simpl. rewrite <-Hr.
  by rewrite parse_encode_members.
Qed.

End JsonFacts.

(** ** Saving one transcript *)

Lemma write_file_ok (E : Env) (p content : string) (s : state) :
  writable E (fs s) p = true →
  write_file E p content s
  = (Ok tt, {| fs := <[resolve E p := File content]> (fs s);
               log := log s ++ [Wrote (resolve E p)] |}).
Proof.
  unfold writable, openable, write_file. intros H.
  apply andb_true_iff in H as [[[[Hp Hd]%andb_true_iff Hpar]%andb_true_iff Ho]%andb_true_iff Hw].
  apply negb_true_iff in Hp, Hd, Ho, Hw. rewrite Hp. run.
  destruct (node_at (fs s) (resolve E p)) as [[?|]|]; try done;
    destruct (node_at (fs s) (removelast (resolve E p))) as [[?|]|]; try done;
    by rewrite Ho, Hw.
Qed.

Lemma write_file_fails (E : Env) (p content : string) (s : state) :
  writable E (fs s) p = false →
  ∃ e s', write_file E p content s = (Raise e, s')
          ∧ log s' = log s
          ∧ (fs s' = fs s ∨ fs s' = <[resolve E p := File ""]> (fs s)).
Proof.
  unfold writable, openable, write_file. intros H.
  destruct (Str.falsy p); [eexists _, _; split_and!; [done|done|by left]|].
  run. simpl in H.
  destruct (node_at (fs s) (resolve E p)) as [[?|]|]; simpl in H;
    try (eexists _, _; split_and!; [done|done|by left]);
    (destruct (node_at (fs s) (removelast (resolve E p))) as [[?|]|]; simpl in H;
     try (eexists _, _; split_and!; [done|done|by left]);
     destruct (open_fault E (resolve E p)); simpl in H;
     try (eexists _, _; split_and!; [done|done|by left]);
     destruct (write_fault E (resolve E p)); [|done];
     eexists _, _; split_and!; [done|done|by right]).
Qed.

Lemma transcribe_and_save_unfold (E : Env) (current_output_dir root file : string)
    (n : nat) (s : state) :
  transcribe_and_save E current_output_dir root file n s =
    let input_file := PosixPath.join root file in
    let output_file := output_file_of current_output_dir file in
    let json_output := json_output_of current_output_dir file in
    if exists_in E (fs s) output_file then (Ok (n + 1), say (Skipping input_file) s)
    else
      match transcribe_audio_with_whisper E input_file "en" s with
      | (Raise e, s1) => (Ok n, say (ErrorProcessing input_file e) s1)
      | (Ok text, s1) =>
          if Str.falsy text then (Ok n, s1)
          else
            match write_file E output_file text s1 with
            | (Raise e, s2) => (Ok n, say (ErrorProcessing input_file e) s2)
            | (Ok _, s2) =>
                match write_file E json_output
                        (Json.dumps_indent2 (sidecar input_file text)) s2 with
                | (Raise e, s3) => (Ok n, say (ErrorProcessing input_file e) s3)
                | (Ok _, s3) => (Ok (n + 1), s3)
                end
            end
      end.
Proof.
  unfold transcribe_and_save, path_exists. run.
  destruct (exists_in E (fs s) _); [done|].
  destruct (transcribe_audio_with_whisper E _ _ s) as [[text|e] s1]; [|done].
  destruct (Str.falsy text); simpl; [done|].
  destruct (write_file E _ text s1) as [[[]|e] s2]; [|done].
  by destruct (write_file E _ _ s2) as [[[]|e] s3].
Qed.

Lemma transcribe_keeps_tree (E : Env) (audio_file language : string) (s s1 : state) r :
  transcribe_audio_with_whisper E audio_file language s = (r, s1) → fs s1 = fs s.
Proof.
  rewrite transcribe_cases. destruct (exists_in E (fs s) audio_file).
  - destruct (whisper_load_model E "tiny"); [by intros [= _ <-]|].
    destruct (whisper_transcribe E audio_file language); by intros [= _ <-].
  - by intros [= _ <-].
Qed.

(** The success path of one file: both files are written, the text first. *)
Lemma transcribe_and_save_ok (E : Env) (current_output_dir root file : string)
    (n : nat) (s s1 : state) (text : string) :
  let input_file := PosixPath.join root file in
  let output_file := output_file_of current_output_dir file in
  let json_output := json_output_of current_output_dir file in
  exists_in E (fs s) output_file = false →
  transcribe_audio_with_whisper E input_file "en" s = (Ok text, s1) →
  text ≠ "" →
  writable E (fs s) output_file = true →
  writable E (<[resolve E output_file := File text]> (fs s)) json_output = true →
  transcribe_and_save E current_output_dir root file n s
  = (Ok (n + 1),
     {| fs := <[resolve E json_output := File (Json.dumps_indent2 (sidecar input_file text))]>
                (<[resolve E output_file := File text]> (fs s));
        log := log s1 ++ [Wrote (resolve E output_file); Wrote (resolve E json_output)] |}).
Proof.
  intros input_file output_file json_output Hnew Hrun Htext Hw1 Hw2.
  rewrite transcribe_and_save_unfold. simpl. fold input_file output_file json_output.
  rewrite Hnew, Hrun. apply falsy_false in Htext as ->.
  apply transcribe_keeps_tree in Hrun as Hfs.
  rewrite write_file_ok by (by rewrite Hfs).
  rewrite write_file_ok by (simpl; by rewrite Hfs).
  simpl. by rewrite Hfs, <-app_assoc.
Qed.

(** ** Persistence of one transcript *)

(** C1, as the specification words it, fails: the talk of the sample world
    is a bad file, its transcription is the empty sentinel, and nothing is
    written for it and it is not counted. *)
Lemma empty_transcription_is_not_persisted : ¬ persists_whenever_transcription_returns.
Proof.
  intros H.
  assert ((transcribe_audio_with_whisper Sample.env0 (PosixPath.join "in" "talk.MP3") "en"
             Sample.start).1 = Ok "") as Htext by (vm_compute; reflexivity).
  destruct (transcribe_audio_with_whisper Sample.env0 (PosixPath.join "in" "talk.MP3") "en"
              Sample.start) as [r s1] eqn:Hrun.
  simpl in Htext. subst r.
  destruct (H Sample.env0 "in" "in" "talk.MP3" 0 Sample.start s1 "") as (s' & Hsave & _).
  - vm_compute. reflexivity.
  - exact Hrun.
  - vm_compute. reflexivity.
  - vm_compute. reflexivity.
  - assert ((transcribe_and_save Sample.env0 "in" "in" "talk.MP3" 0 Sample.start).1 = Ok 0)
      as Hcount by (vm_compute; reflexivity).
    rewrite Hsave in Hcount. discriminate Hcount.
Qed.

(** C1, amended: when the transcription of a file returns a text that is
    not empty (and the tree accepts the two output files), the text file is
    written, then the sidecar, and the file is counted; when it returns the
    empty sentinel, nothing is written, the file is not counted, and no
    error is reported. *)
Theorem persists_unless_transcription_is_empty (E : Env)
    (current_output_dir root file : string) (n : nat) (s s1 : state) (text : string) :
  let input_file := PosixPath.join root file in
  let output_file := output_file_of current_output_dir file in
  let json_output := json_output_of current_output_dir file in
  exists_in E (fs s) output_file = false →
  transcribe_audio_with_whisper E input_file "en" s = (Ok text, s1) →
  writable E (fs s) output_file = true →
  writable E (<[resolve E output_file := File text]> (fs s)) json_output = true →
  (text ≠ "" →
   transcribe_and_save E current_output_dir root file n s
   = (Ok (n + 1),
      {| fs := <[resolve E json_output := File (Json.dumps_indent2 (sidecar input_file text))]>
                 (<[resolve E output_file := File text]> (fs s));
         log := log s1 ++ [Wrote (resolve E output_file); Wrote (resolve E json_output)] |}))
  ∧ (text = "" →
     transcribe_and_save E current_output_dir root file n s = (Ok n, s1) ∧ fs s1 = fs s).
Proof.
  intros input_file output_file json_output Hnew Hrun Hw1 Hw2. split.
  - intros Htext. by apply transcribe_and_save_ok.
  - intros ->. rewrite transcribe_and_save_unfold. simpl.
    fold input_file output_file. rewrite Hnew, Hrun. simpl.
    split; [done|]. by eapply transcribe_keeps_tree.
Qed.

(** C1 in the sample world: the clip is transcribed, saved and counted. *)
Lemma persists_unless_transcription_is_empty_witness :
  ∃ s', transcribe_and_save Sample.env0 "in/a/b/c" "in/a/b/c" "clip_audio.wav" 0 Sample.start
        = (Ok 1, s')
        ∧ fs s' !! ["home"; "u"; "in"; "a"; "b"; "c"; "clip_audio.txt"]
          = Some (File " hello world").
Proof.
  assert ((transcribe_audio_with_whisper Sample.env0
             (PosixPath.join "in/a/b/c" "clip_audio.wav") "en" Sample.start).1
          = Ok " hello world") as Htext by (vm_compute; reflexivity).
  destruct (transcribe_audio_with_whisper Sample.env0
              (PosixPath.join "in/a/b/c" "clip_audio.wav") "en" Sample.start)
    as [r s1] eqn:Hrun.
  simpl in Htext. subst r.
  destruct (persists_unless_transcription_is_empty Sample.env0 "in/a/b/c" "in/a/b/c"
              "clip_audio.wav" 0 Sample.start s1 " hello world") as [Hsave _].
  - vm_compute. reflexivity.
  - exact Hrun.
  - vm_compute. reflexivity.
  - vm_compute. reflexivity.
  - eexists. split; [apply Hsave; discriminate|].
    cbn [fs]. rewrite lookup_insert_ne by (vm_compute; congruence).
    apply lookup_insert_eq.
Defined.



Lemma ensure_dir_existing (E : Env) (d : string) (s : state) :
  exists_in E (fs s) d = true → ensure_dir E d s = (Ok tt, s).
Proof. intros H. unfold ensure_dir, path_exists. run. by rewrite H. Qed.

Lemma transcribe_one_in_existing_dir (E : Env) (input_dir output_dir root file : string)
    (current_output_dir : string) (n : nat) (s : state) :
  mirrored_dir E input_dir output_dir root = Some current_output_dir →
  exists_in E (fs s) current_output_dir = true →
  transcribe_one E input_dir output_dir (root, file) n s
  = transcribe_and_save E current_output_dir root file n s.
Proof.
  intros Hm Hex. unfold transcribe_one, mirror. simpl. rewrite Hm.
  unfold mbind at 1, M_bind at 1, mret at 1, M_ret at 1.
  unfold mbind at 1, M_bind at 1. by rewrite (ensure_dir_existing _ _ _ Hex).
Qed.

Lemma exists_in_insert (E : Env) (t : tree) (p : string) (n : node) :
  p ≠ "" → exists_in E (<[resolve E p := n]> t) p = true.
Proof.
  intros Hp. unfold exists_in. apply falsy_false in Hp as ->. simpl.
  apply bool_decide_eq_true. destruct (resolve E p) eqn:Hc; simpl; [by eexists|].
  rewrite lookup_insert_eq. by eexists.
Qed.

Lemma exists_in_insert_other (E : Env) (t : tree) (p : string) (c : list string) (n : node) :
  exists_in E t p = true → exists_in E (<[c := n]> t) p = true.
Proof.
  unfold exists_in. intros [Hp Hn]%andb_true_iff. rewrite Hp. simpl.
  apply bool_decide_eq_true in Hn. apply bool_decide_eq_true.
  destruct (resolve E p) as [|x r]; simpl in *; [done|].
  destruct (decide (c = x :: r)) as [->|Hne].
  - rewrite lookup_insert_eq. by eexists.
  - by rewrite lookup_insert_ne.
Qed.

Lemma writable_nonempty (E : Env) (t : tree) (p : string) : writable E t p = true → p ≠ "".
Proof. unfold writable, openable. by intros H ->. Qed.

Lemma grows_exists (E : Env) (s s' : state) (p : string) :
  grows s s' → exists_in E (fs s) p = true → exists_in E (fs s') p = true.
Proof. intros [Hext _]. by apply extends_exists. Qed.

(** A file whose text is there is skipped and counted, in any state. *)
Lemma transcribe_and_save_skips (E : Env) (current_output_dir root file : string)
    (n : nat) (s : state) :
  exists_in E (fs s) (output_file_of current_output_dir file) = true →
  transcribe_and_save E current_output_dir root file n s
  = (Ok (n + 1), say (Skipping (PosixPath.join root file)) s).
Proof. intros H. rewrite transcribe_and_save_unfold. simpl. by rewrite H. Qed.

(** C10: saving is not atomic. When the text file has been written and the
    write of the sidecar raises, the text file stays, the file is not
    counted in that run and the error is reported; from then on, in any
    later state, the file is skipped and counted, the tree is left as it is
    (no sidecar is produced) and no collaborator is invoked. *)
Theorem failed_sidecar_is_never_written (E : Env)
    (input_dir output_dir root file current_output_dir : string)
    (n : nat) (s s1 : state) (text : string) :
  let input_file := PosixPath.join root file in
  let output_file := output_file_of current_output_dir file in
  let json_output := json_output_of current_output_dir file in
  mirrored_dir E input_dir output_dir root = Some current_output_dir →
  exists_in E (fs s) current_output_dir = true →
  exists_in E (fs s) output_file = false →
  transcribe_audio_with_whisper E input_file "en" s = (Ok text, s1) →
  text ≠ "" →
  writable E (fs s) output_file = true →
  writable E (<[resolve E output_file := File text]> (fs s)) json_output = false →
  ∃ e s',
    transcribe_one E input_dir output_dir (root, file) n s = (Ok n, s')
    ∧ last (log s') = Some (Print (ErrorProcessing input_file e))
    ∧ exists_in E (fs s') output_file = true
    ∧ (fs s' = <[resolve E output_file := File text]> (fs s)
       ∨ fs s' = <[resolve E json_output := File ""]>
                   (<[resolve E output_file := File text]> (fs s)))
    ∧ ∀ s'' n', grows s' s'' →
        transcribe_one E input_dir output_dir (root, file) n' s''
        = (Ok (n' + 1), say (Skipping input_file) s'').
Proof.
  intros input_file output_file json_output Hm Hdir Hnew Hrun Htext Hw1 Hw2.
  rewrite (transcribe_one_in_existing_dir _ _ _ _ _ _ _ _ Hm Hdir).
  rewrite transcribe_and_save_unfold. cbv zeta. fold input_file output_file json_output.
  rewrite Hnew, Hrun. apply falsy_false in Htext as ->.
  apply transcribe_keeps_tree in Hrun as Hfs.
  rewrite write_file_ok by (by rewrite Hfs).
  set (s2 := {| fs := <[resolve E output_file := File text]> (fs s1);
                log := log s1 ++ [Wrote (resolve E output_file)] |}).
  destruct (write_file_fails E json_output
              (Json.dumps_indent2 (sidecar input_file text)) s2)
    as (e & s3 & Hfail & Hlog & Htree).
  { simpl. by rewrite Hfs. }
  rewrite Hfail. pose proof (writable_nonempty _ _ _ Hw1) as Hne.
  assert (exists_in E (fs s3) output_file = true) as Hthere.
  { destruct Htree as [->| ->]; simpl.
    - by apply exists_in_insert.
    - by apply exists_in_insert_other, exists_in_insert. }
  exists e, (say (ErrorProcessing input_file e) s3). split_and!.
  - done.
  - simpl. by rewrite last_snoc.
  - done.
  - simpl. rewrite <-Hfs. destruct Htree as [->| ->]; simpl; auto.
  - intros s'' n' Hgrows.
    rewrite (transcribe_one_in_existing_dir _ _ _ _ _ current_output_dir).
    + apply transcribe_and_save_skips. eapply grows_exists; [done|]. done.
    + done.
    + eapply grows_exists; [done|]. simpl.
      assert (exists_in E (fs s1) current_output_dir = true) as H1 by (by rewrite Hfs).
      destruct Htree as [->| ->]; simpl; by repeat apply exists_in_insert_other.
Qed.

(** C10 in the sample world where the sidecar of the clip cannot be
    opened. *)
Lemma failed_sidecar_is_never_written_witness :
  ∃ e s',
    transcribe_one Sample.env1 "in" "in" ("in/a/b/c", "clip_audio.wav") 0 Sample.start
    = (Ok 0, s')
    ∧ last (log s') = Some (Print (ErrorProcessing "in/a/b/c/clip_audio.wav" e))
    ∧ ∀ s'' n', grows s' s'' →
        transcribe_one Sample.env1 "in" "in" ("in/a/b/c", "clip_audio.wav") n' s''
        = (Ok (n' + 1), say (Skipping "in/a/b/c/clip_audio.wav") s'').
Proof.
  assert ((transcribe_audio_with_whisper Sample.env1
             (PosixPath.join "in/a/b/c" "clip_audio.wav") "en" Sample.start).1
          = Ok " hello world") as Htext by (vm_compute; reflexivity).
  destruct (transcribe_audio_with_whisper Sample.env1
              (PosixPath.join "in/a/b/c" "clip_audio.wav") "en" Sample.start)
    as [r s1] eqn:Hrun.
  simpl in Htext. subst r.
  destruct (failed_sidecar_is_never_written Sample.env1 "in" "in" "in/a/b/c"
              "clip_audio.wav" "in/a/b/c" 0 Sample.start s1 " hello world")
    as (e & s' & Hone & Hlast & _ & _ & Hlater).
  - vm_compute. reflexivity.
  - vm_compute. reflexivity.
  - vm_compute. reflexivity.
  - exact Hrun.
  - discriminate.
  - vm_compute. reflexivity.
  - vm_compute. reflexivity.
  - exists e, s'. split_and!; [exact Hone|exact Hlast|exact Hlater].
Defined.

(** ** Loops *)

Lemma for_each_cons {A} (body : A → nat → M nat) (x : A) (xs : list A) (n : nat) (s : state) :
  for_each body (x :: xs) n s =
    match body x n s with
    | (Ok n1, s1) => for_each body xs n1 s1
    | (Raise e, s1) => (Raise e, s1)
    end.
Proof. reflexivity. Qed.

Lemma for_each_app {A} (body : A → nat → M nat) (xs ys : list A) (n : nat) (s : state) :
  for_each body (xs ++ ys) n s =
    match for_each body xs n s with
    | (Ok n1, s1) => for_each body ys n1 s1
    | (Raise e, s1) => (Raise e, s1)
    end.
Proof.
  revert n s. induction xs as [|x xs IH]; intros n s; [done|].
  rewrite <-app_comm_cons, !for_each_cons.
  destruct (body x n s) as [[n1|e] s1]; [apply IH|done].
Qed.

Lemma adds_for_each {A} (P : event → Prop) (body : A → nat → M nat) (xs : list A) (n : nat) :
  (∀ x n, adds P (body x n)) → adds P (for_each body xs n).
Proof.
  intros Hbody. revert n. induction xs as [|x xs IH]; intros n; simpl.
  - apply adds_ret.
  - apply adds_bind; [apply Hbody|apply IH].
Qed.

(** ** The split job *)

Lemma verdicts_app (l1 l2 : list event) : verdicts (l1 ++ l2) = verdicts l1 ++ verdicts l2.
Proof. unfold verdicts. apply omap_app. Qed.

Lemma no_verdict_verdicts (l : list event) : Forall no_verdict l → verdicts l = [].
Proof.
  induction 1 as [|ev l Hev _ IH]; [done|].
  unfold verdicts in *. destruct ev as [[]| | |]; simpl in *; done.
Qed.

Lemma count_ok_app (a b : list (string * bool)) : count_ok (a ++ b) = count_ok a + count_ok b.
Proof. unfold count_ok. by rewrite filter_app, length_app. Qed.

Lemma adds_subprocess_run (E : Env) (P : event → Prop) (cmd : list string) :
  (∀ c, P (Invoke c)) → (∀ c, P (Wrote c)) → adds P (subprocess_run E cmd).
Proof.
  intros Hi Hw. unfold subprocess_run. apply adds_bind; [by apply adds_emit|].
  intros _. destruct (ffmpeg E cmd); [by apply adds_deliver|apply adds_raise].
Qed.

Lemma split_video_audio_no_verdict (E : Env) (input_file : string) (od : option string) :
  adds no_verdict (split_video_audio E input_file od).
Proof.
  unfold split_video_audio. apply adds_bind; [mono|]. intros found.
  destruct (negb found); [mono|].
  repeat (apply adds_bind; [|intros ?]); try (by apply adds_subprocess_run); mono.
Qed.

(** After a successful [ensure_dir] the directory is there. *)
Lemma mkdir_ok_exists (E : Env) (c : list string) (s s' : state) :
  mkdir E c s = (Ok tt, s') → node_at (fs s') c = Some Dir.
Proof.
  unfold mkdir. run. destruct (node_at (fs s) c) eqn:Hc; [done|].
  destruct (node_at (fs s) (removelast c)) as [[?|]|]; try done.
  destruct (mkdir_fault E c); [done|]. intros [= <-]. simpl.
  destruct c; [done|]. simpl. by rewrite lookup_insert_eq.
Qed.

Lemma makedirs_at_ok_exists (E : Env) (rc : list string) (s s' : state) :
  makedirs_at E rc s = (Ok tt, s') → node_at (fs s') (rev rc) = Some Dir.
Proof.
  destruct rc as [|x rc]; simpl.
  - apply mkdir_ok_exists.
  - unfold mbind at 1, M_bind at 1, get_fs. unfold mbind, M_bind.
    destruct (if bool_decide _ then _ else _) as [[[]|e] s1]; [|done].
    apply mkdir_ok_exists.
Qed.

Lemma ensure_dir_ok_exists (E : Env) (d : string) (s s' : state) :
  ensure_dir E d s = (Ok tt, s') → exists_in E (fs s') d = true.
Proof.
  unfold ensure_dir, path_exists. run.
  destruct (exists_in E (fs s) d) eqn:Hex; simpl; [by intros [= <-]|].
  unfold makedirs. destruct (Str.falsy d) eqn:Hd; [done|].
  intros Hmk%makedirs_at_ok_exists. unfold exists_in. rewrite Hd. simpl.
  apply bool_decide_eq_true. rewrite rev_involutive in Hmk. unfold resolve.
  unfold resolve in Hmk. rewrite Hmk. by eexists.
Qed.

Lemma join_nonempty (a b : string) : a ≠ "" → PosixPath.join a b ≠ "".
Proof.
  intros Ha. unfold PosixPath.join. apply falsy_false in Ha as Hf. rewrite Hf, orb_false_r.
  destruct (PosixPath.isabs b) eqn:Hb; [by destruct b|].
  destruct (PosixPath.ends_with_sep a); by destruct a.
Qed.

Lemma mirrored_dir_nonempty (E : Env) (input_dir output_dir root cod : string) :
  output_dir ≠ "" → mirrored_dir E input_dir output_dir root = Some cod → cod ≠ "".
Proof.
  intros Ho. unfold mirrored_dir.
  destruct (PosixPath.relpath (cwd E) root input_dir) as [rel|]; [|done]. simpl.
  intros [= <-]. case_bool_decide; [done|by apply join_nonempty].
Qed.

Lemma mirrored_dir_is_Some (E : Env) (input_dir output_dir root : string) :
  root ≠ "" → is_Some (mirrored_dir E input_dir output_dir root).
Proof.
  intros Hr. unfold mirrored_dir, PosixPath.relpath.
  apply falsy_false in Hr as ->. simpl. by eexists.
Qed.

(** What a successful split went through. *)
Lemma split_video_audio_ok_inv (E : Env) (input_file : string) (output_dir : option string)
    (s s' : state) (r : string * string) :
  split_video_audio E input_file output_dir s = (Ok r, s') →
  let od := effective_output_dir input_file output_dir in
  (∃ content, ffmpeg E (video_cmd input_file (video_output_of od input_file)) = Ok content)
  ∧ (∃ content, ffmpeg E (audio_cmd input_file (audio_output_of od input_file)) = Ok content)
  ∧ exists_in E (fs s') od = true.
Proof.
  intros Hrun od. rewrite split_video_audio_unfold in Hrun. cbv zeta in Hrun. fold od in Hrun.
  destruct (exists_in E (fs s) input_file); [|done].
  destruct (ensure_dir E od s) as [[[]|?] s1] eqn:Hdir; [|done].
  set (vcmd := video_cmd input_file (video_output_of od input_file)) in *.
  set (acmd := audio_cmd input_file (audio_output_of od input_file)) in *.
  destruct (ffmpeg E vcmd) as [c1|?] eqn:Hv1.
  2:{ by rewrite (subprocess_run_fails _ _ _ _ Hv1) in Hrun. }
  pose proof (monotone_subprocess_run E vcmd
                (say (ExtractingVideo (video_output_of od input_file)) s1)) as G1.
  destruct (subprocess_run E vcmd _) as [[[]|?] s2]; [|done].
  destruct (ffmpeg E acmd) as [c2|?] eqn:Hv2.
  2:{ by rewrite (subprocess_run_fails _ _ _ _ Hv2) in Hrun. }
  pose proof (monotone_subprocess_run E acmd
                (say (ExtractingAudio (audio_output_of od input_file)) s2)) as G2.
  destruct (subprocess_run E acmd _) as [[[]|?] s3]; [|done].
  injection Hrun as _ <-. split_and!; [by eexists..|].
  apply ensure_dir_ok_exists in Hdir. simpl.
  eapply extends_exists; [apply G2|]. eapply extends_exists; [apply G1|]. done.
Qed.

Lemma grows_say (l : line) (s : state) : grows s (say l s).
Proof. split; [apply extends_refl|]. eexists. split; [done|]. by repeat constructor. Qed.

(** What the split of one file leaves behind. *)
Lemma split_one_spec (E : Env) (cod root file : string) (n : nat) (s : state) :
  ∃ n' s',
    split_one E cod root file n s = (Ok n', s')
    ∧ grows s s'
    ∧ (if is_mp4 file then
         ∃ b, verdicts (new_events s s') = [(PosixPath.join root file, b)]
              ∧ (b = true → both_demuxed E cod (PosixPath.join root file)
                            ∧ (cod ≠ "" → exists_in E (fs s') cod = true))
       else verdicts (new_events s s') = [])
    ∧ n' = n + count_ok (verdicts (new_events s s')).
Proof.
  rewrite split_one_cases. destruct (is_mp4 file) eqn:Hsel.
  - set (input_file := PosixPath.join root file).
    pose proof (split_video_audio_no_verdict E input_file (Some cod) s) as Hq.
    destruct (split_video_audio E _ _ s) as [[r|e] s1] eqn:Hrun; simpl in Hq.
    + eexists _, _. split; [done|].
      assert (verdicts (new_events s (say (Processed input_file) s1))
              = [(input_file, true)]) as Hv.
      { erewrite (new_events_trans _ _ s s1); [|done|apply grows_say].
        rewrite verdicts_app, (no_verdict_verdicts (new_events s s1))
          by (by eapply grows_with_new_events).
        erewrite (new_events_app s1); [|done]. done. }
      split_and!.
      * eapply grows_with_trans; [|apply grows_say]. eapply grows_with_weaken; [|done]. done.
      * exists true. split; [done|]. intros _.
        apply split_video_audio_ok_inv in Hrun as (Hv1 & Hv2 & Hex).
        split; [by split|]. intros Hcod. simpl.
        assert (effective_output_dir input_file (Some cod) = cod) as Hod.
        { unfold effective_output_dir. by apply falsy_false in Hcod as ->. }
        by rewrite Hod in Hex.
      * by rewrite Hv.
    + eexists _, _. split; [done|].
      assert (verdicts (new_events s (say (ErrorProcessing input_file e) s1))
              = [(input_file, false)]) as Hv.
      { erewrite (new_events_trans _ _ s s1); [|done|apply grows_say].
        rewrite verdicts_app, (no_verdict_verdicts (new_events s s1))
          by (by eapply grows_with_new_events).
        erewrite (new_events_app s1); [|done]. done. }
      split_and!.
      * eapply grows_with_trans; [|apply grows_say]. eapply grows_with_weaken; [|done]. done.
      * exists false. by split.
      * by rewrite Hv.
  - eexists _, _. split; [done|]. unfold new_events. rewrite drop_all. simpl.
    split_and!; [apply grows_with_refl|done|]. unfold count_ok. simpl. lia.
Qed.

Lemma verdict_for_grows (E : Env) (i o : string) (t t' : tree) rf v :
  extends t t' → verdict_for E i o t rf v → verdict_for E i o t' rf v.
Proof.
  intros Hext [Hname Hok]. split; [done|]. intros Hv.
  destruct (Hok Hv) as (cod & Hm & Hd & Hex). exists cod. split_and!; [done..|].
  intros Hc. eapply extends_exists; eauto.
Qed.

Lemma split_files_spec (E : Env) (input_dir output_dir cod root : string)
    (files : list string) (n : nat) (s : state) :
  mirrored_dir E input_dir output_dir root = Some cod →
  ∃ n' s',
    split_files E cod root files n s = (Ok n', s')
    ∧ grows s s'
    ∧ Forall2 (verdict_for E input_dir output_dir (fs s'))
        ((λ file, (root, file)) <$> filter (λ file, is_mp4 file = true) files)
        (verdicts (new_events s s'))
    ∧ n' = n + count_ok (verdicts (new_events s s')).
Proof.
  intros Hm. unfold split_files. revert n s.
  induction files as [|file files IH]; intros n s.
  - eexists _, _. split; [done|]. unfold new_events. rewrite drop_all. simpl.
    split_and!; [apply grows_with_refl|constructor|]. unfold count_ok. simpl. lia.
  - rewrite for_each_cons.
    destruct (split_one_spec E cod root file n s) as (n1 & s1 & -> & G1 & V1 & ->).
    destruct (IH (n + count_ok (verdicts (new_events s s1))) s1) as (n2 & s2 & -> & G2 & V2 & ->).
    eexists _, _. split; [done|].
    rewrite (new_events_trans _ _ s s1 s2 G1 G2), verdicts_app, count_ok_app.
    split_and!; [by eapply grows_with_trans| |lia].
    rewrite filter_cons. destruct G2 as [E2 _].
    destruct (is_mp4 file) eqn:Hsel.
    + rewrite decide_True by done. destruct V1 as (b & -> & Hb). simpl.
      constructor; [|done]. split; [done|]. simpl. intros ->.
      destruct (Hb eq_refl) as [Hd Hex]. exists cod. split_and!; [done..|].
      intros Hc. eapply extends_exists; eauto.
    + rewrite decide_False by done. by rewrite V1.
Qed.

Lemma split_dir_spec (E : Env) (input_dir output_dir : string)
    (item : string * list string * list string) (n : nat) (s : state) :
  item.1.1 ≠ "" →
  ∃ n' s',
    split_dir E input_dir output_dir item n s = (Ok n', s')
    ∧ grows s s'
    ∧ Forall2 (verdict_for E input_dir output_dir (fs s'))
        (find_videos [item]) (verdicts (new_events s s'))
    ∧ n' = n + count_ok (verdicts (new_events s s')).
Proof.
  intros Hroot. unfold split_dir, mirror.
  destruct (mirrored_dir_is_Some E input_dir output_dir _ Hroot) as [cod Hm].
  rewrite Hm. unfold mbind, M_bind, mret, M_ret.
  unfold find_videos. simpl. rewrite app_nil_r.
  by apply split_files_spec.
Qed.

Lemma find_videos_cons item items :
  find_videos (item :: items) = find_videos [item] ++ find_videos items.
Proof. unfold find_videos. simpl. by rewrite app_nil_r. Qed.

Lemma split_dirs_spec (E : Env) (input_dir output_dir : string)
    (items : list (string * list string * list string)) (n : nat) (s : state) :
  Forall (λ item, item.1.1 ≠ "") items →
  ∃ n' s',
    split_dirs E input_dir output_dir items n s = (Ok n', s')
    ∧ grows s s'
    ∧ Forall2 (verdict_for E input_dir output_dir (fs s'))
        (find_videos items) (verdicts (new_events s s'))
    ∧ n' = n + count_ok (verdicts (new_events s s')).
Proof.
  intros Hroots. unfold split_dirs. revert n s.
  induction Hroots as [|item items Hroot _ IH]; intros n s.
  - eexists _, _. split; [done|]. unfold new_events. rewrite drop_all. simpl.
    split_and!; [apply grows_with_refl|constructor|]. unfold count_ok. simpl. lia.
  - rewrite for_each_cons.
    destruct (split_dir_spec E input_dir output_dir item n s Hroot)
      as (n1 & s1 & -> & G1 & V1 & ->).
    destruct (IH (n + count_ok (verdicts (new_events s s1))) s1) as (n2 & s2 & -> & G2 & V2 & ->).
    eexists _, _. split; [done|].
    rewrite (new_events_trans _ _ s s1 s2 G1 G2), verdicts_app, count_ok_app.
    split_and!; [by eapply grows_with_trans| |lia].
    rewrite find_videos_cons. apply Forall2_app; [|done].
    eapply Forall2_impl; [done|]. intros rf v. apply verdict_for_grows, G2.
Qed.

(** The roots of a walk are never the empty path. *)
Lemma walk_from_roots (E : Env) (fuel : nat) (t : tree) (top : string) :
  Forall (λ item : string * list string * list string, item.1.1 ≠ "") (walk_from E fuel t top).
Proof.
  revert top. induction fuel as [|fuel IH]; intros top; simpl; [constructor|].
  destruct (Str.falsy top) eqn:Htop; simpl; [constructor|].
  destruct (is_dir_node _); [|constructor].
  constructor; [by apply falsy_false|].
  apply Forall_forall. intros item Hin.
  apply list_elem_of_In, in_flat_map in Hin as (d & _ & Hin).
  specialize (IH (PosixPath.join top d)). rewrite Forall_forall in IH.
  by apply IH, list_elem_of_In.
Qed.

Lemma split_job_spec (E : Env) (input_dir output_base_dir : string) (s : state) :
  ∃ n s',
    process_directory_recursively E input_dir output_base_dir s = (Ok n, s')
    ∧ grows s s'
    ∧ Forall2 (verdict_for E input_dir output_base_dir (fs s'))
        (find_videos (os_walk E (fs s) input_dir)) (verdicts (new_events s s'))
    ∧ n = count_ok (verdicts (new_events s s')).
Proof.
  unfold process_directory_recursively. unfold mbind, M_bind, get_fs.
  destruct (split_dirs_spec E input_dir output_base_dir (os_walk E (fs s) input_dir) 0 s)
    as (n & s' & Hrun & G & V & Hn); [apply walk_from_roots|].
  exists n, s'. by rewrite Hrun.
Qed.

(** ** The transcribe job *)

Lemma monotone_transcribe (E : Env) (f l : string) :
  monotone (transcribe_audio_with_whisper E f l).
Proof. unfold transcribe_audio_with_whisper. mono. Qed.

Lemma monotone_transcribe_and_save (E : Env) (cod root file : string) (n : nat) :
  monotone (transcribe_and_save E cod root file n).
Proof.
  unfold transcribe_and_save. apply adds_try; [|intros ?; mono].
  apply adds_bind; [mono|]. intros []; [mono|].
  apply adds_bind; [apply monotone_transcribe|]. intros text. mono.
Qed.

Lemma monotone_transcribe_one (E : Env) (i o : string) (rf : string * string) (n : nat) :
  monotone (transcribe_one E i o rf n).
Proof.
  unfold transcribe_one. apply adds_bind; [mono|]. intros cod.
  apply adds_bind; [mono|]. intros _. apply monotone_transcribe_and_save.
Qed.

(** A turn of the loop that returns has resolved and made its directory. *)
Lemma transcribe_one_ok_inv (E : Env) (i o : string) (rf : string * string)
    (n n' : nat) (s s' : state) :
  transcribe_one E i o rf n s = (Ok n', s') →
  ∃ cod s1, mirrored_dir E i o rf.1 = Some cod
            ∧ ensure_dir E cod s = (Ok tt, s1)
            ∧ transcribe_and_save E cod rf.1 rf.2 n s1 = (Ok n', s')
            ∧ exists_in E (fs s') cod = true.
Proof.
  unfold transcribe_one, mirror.
  destruct (mirrored_dir E i o rf.1) as [cod|]; [|done].
  unfold mbind at 1, M_bind at 1, mret at 1, M_ret at 1.
  unfold mbind, M_bind.
  destruct (ensure_dir E cod s) as [[[]|e] s1] eqn:Hdir; [|done].
  intros Hsave. exists cod, s1. split_and!; [done..|].
  pose proof (monotone_transcribe_and_save E cod rf.1 rf.2 n s1) as [G _].
  rewrite Hsave in G. eapply extends_exists; [done|]. by eapply ensure_dir_ok_exists.
Qed.

(** Every element of a loop that returned had its turn, between the start
    and the end. *)
Lemma for_each_ok_elem {A} (body : A → nat → M nat) (xs : list A)
    (n n' : nat) (s s' : state) (x : A) :
  (∀ x n, monotone (body x n)) →
  for_each body xs n s = (Ok n', s') → x ∈ xs →
  ∃ n1 s1 n2 s2, grows s s1 ∧ body x n1 s1 = (Ok n2, s2) ∧ grows s2 s'.
Proof.
  intros Hmono. revert n s. induction xs as [|y xs IH]; intros n s Hrun Hin.
  - by apply elem_of_nil in Hin.
  - rewrite for_each_cons in Hrun.
    destruct (body y n s) as [[m|e] sm] eqn:Hy; [|done].
    pose proof (Hmono y n s) as Gy. rewrite Hy in Gy. simpl in Gy.
    pose proof (adds_for_each any_event body xs m Hmono sm) as Gr.
    rewrite Hrun in Gr. simpl in Gr.
    apply elem_of_cons in Hin as [->|Hin].
    + exists n, s, m, sm. split_and!; [apply grows_with_refl|done|done].
    + destruct (IH m sm Hrun Hin) as (n1 & s1 & n2 & s2 & G1 & Hx & G2).
      exists n1, s1, n2, s2. split_and!; [by eapply grows_with_trans|done|done].
Qed.

Lemma process_audio_directory_unfold (E : Env) (input_dir output_dir : string) (s : state) :
  process_audio_directory E input_dir output_dir s =
    match ensure_dir E output_dir s with
    | (Ok _, s0) =>
        transcribe_all E input_dir output_dir (find_audio_files E (fs s0) input_dir) 0
          (say (Found (length (find_audio_files E (fs s0) input_dir))) s0)
    | (Raise e, s0) => (Raise e, s0)
    end.
Proof.
  unfold process_audio_directory. unfold mbind at 1, M_bind at 1.
  by destruct (ensure_dir E output_dir s) as [[[]|e] s0].
Qed.

(** The transcribe job makes the output directory of every directory in
    which it found an audio file. *)
Lemma transcribe_job_mirrors (E : Env) (input_dir output_dir : string)
    (s s' : state) (n : nat) (rf : string * string) :
  process_audio_directory E input_dir output_dir s = (Ok n, s') →
  rf ∈ enumerated_audio E input_dir output_dir s →
  ∃ cod, mirrored_dir E input_dir output_dir rf.1 = Some cod
         ∧ exists_in E (fs s') cod = true.
Proof.
  rewrite process_audio_directory_unfold. unfold enumerated_audio.
  destruct (ensure_dir E output_dir s) as [[[]|e] s0]; [|done]. simpl.
  intros Hrun Hin. unfold transcribe_all in Hrun.
  destruct (for_each_ok_elem _ _ _ _ _ _ rf (monotone_transcribe_one E input_dir output_dir)
              Hrun Hin) as (n1 & s1 & n2 & s2 & _ & Hturn & [G _]).
  apply transcribe_one_ok_inv in Hturn as (cod & _ & Hm & _ & _ & Hex).
  exists cod. split; [done|]. by eapply extends_exists.
Qed.

Lemma verdicts_false_elem (l : list event) (f : string) :
  (f, false) ∈ verdicts l → ∃ e, Print (ErrorProcessing f e) ∈ l.
Proof.
  unfold verdicts. rewrite list_elem_of_omap. intros (ev & Hin & Hev).
  destruct ev as [[]| | |]; simplify_eq. by eexists.
Qed.

(** The split job makes the output directory of every file it reports as
    processed. *)
Lemma split_job_mirrors (E : Env) (input_dir output_base_dir : string)
    (s s' : state) (n : nat) (rf : string * string) (cod : string) :
  output_base_dir ≠ "" →
  process_directory_recursively E input_dir output_base_dir s = (Ok n, s') →
  rf ∈ find_videos (os_walk E (fs s) input_dir) →
  mirrored_dir E input_dir output_base_dir rf.1 = Some cod →
  exists_in E (fs s') cod = true
  ∨ ∃ e, Print (ErrorProcessing (PosixPath.join rf.1 rf.2) e) ∈ new_events s s'.
Proof.
  intros Hout Hrun Hin Hm.
  destruct (split_job_spec E input_dir output_base_dir s) as (n0 & s0 & Hrun' & _ & V & _).
  rewrite Hrun in Hrun'. injection Hrun' as <- <-.
  apply list_elem_of_lookup in Hin as [i Hi].
  destruct (Forall2_lookup_l _ _ _ _ _ V Hi) as ([f b] & Hv & Hname & Hok).
  simpl in Hname, Hok. subst f. destruct b.
  - left. destruct (Hok eq_refl) as (cod' & Hm' & _ & Hex).
    rewrite Hm in Hm'. injection Hm' as <-. apply Hex.
    by eapply mirrored_dir_nonempty.
  - right. apply verdicts_false_elem. by eapply list_elem_of_lookup_2.
Qed.

(** ** Mirroring of the directories *)

Lemma commonprefix_app (l ds : list string) : PosixPath.commonprefix l (l ++ ds) = l.
Proof. induction l as [|x l IH]; simpl; [by destruct ds|]. by rewrite decide_True, IH. Qed.

Lemma abs_comps_descend (cwd : list string) (top : string) (ds : list string) :
  Forall (λ d, PosixPath.valid_name d = true) ds →
  PosixPath.abs_comps cwd (foldl PosixPath.join top ds) = PosixPath.abs_comps cwd top ++ ds.
Proof.
  intros Hds. revert top. induction Hds as [|d ds Hd _ IH]; intros top; simpl.
  - by rewrite app_nil_r.
  - by rewrite IH, abs_comps_join, <-app_assoc.
Qed.

Lemma descend_nonempty (top : string) (ds : list string) :
  top ≠ "" → foldl PosixPath.join top ds ≠ "".
Proof.
  revert top. induction ds as [|d ds IH]; intros top Htop; simpl; [done|].
  by apply IH, join_nonempty.
Qed.

Lemma join_with_not_curdir (ds : list string) :
  ds ≠ [] → Forall (λ d, PosixPath.valid_name d = true) ds → Str.join_with "/" ds ≠ ".".
Proof.
  intros Hne Hds. destruct Hds as [|d ds Hd Hds]; [done|].
  destruct ds as [|d' ds]; simpl.
  - intros ->. done.
  - destruct d as [|c [|c' d]]; [done| |].
    + rewrite str_app_cons. by intros [= -> H].
    + rewrite !str_app_cons. by intros [= -> H].
Qed.

(** The directory that mirrors the one reached from the input root by the
    names [ds] is reached from the output root by the same names. *)
Lemma mirrored_dir_descend (E : Env) (input_dir output_dir : string) (ds : list string) :
  input_dir ≠ "" → Forall (λ d, PosixPath.valid_name d = true) ds →
  mirrored_dir E input_dir output_dir (foldl PosixPath.join input_dir ds)
  = Some (if bool_decide (ds = []) then output_dir
          else PosixPath.join output_dir (Str.join_with "/" ds)).
Proof.
  intros Hin Hds. unfold mirrored_dir, PosixPath.relpath.
  pose proof (descend_nonempty input_dir ds Hin) as Hne.
  apply falsy_false in Hne as ->. rewrite abs_comps_descend by done.
  rewrite commonprefix_app, Nat.sub_diag, drop_app_length. simpl.
  destruct (decide (ds = [])) as [->|Hnil]; [done|].
  rewrite (bool_decide_eq_false_2 (ds = [])) by done.
  by rewrite bool_decide_eq_false_2 by (by apply join_with_not_curdir).
Qed.




(** ** Isolation of failures *)

Lemma count_ok_failed (vs : list (string * bool)) :
  count_ok vs + length (filter (λ v, v.2 = false) vs) = length vs.
Proof.
  unfold count_ok. induction vs as [|[f b] vs IH]; [done|].
  rewrite !filter_cons. destruct b; repeat case_decide; simpl in *; try done; lia.
Qed.

Lemma verdict_for_names (E : Env) (i o : string) (t : tree)
    (rfs : list (string * string)) (vs : list (string * bool)) :
  Forall2 (verdict_for E i o t) rfs vs →
  vs.*1 = (λ rf, PosixPath.join rf.1 rf.2) <$> rfs.
Proof.
  induction 1 as [|rf v rfs vs [Hn _] _ IH]; [done|].
  rewrite !fmap_cons. by rewrite Hn, IH.
Qed.

Lemma transcribe_and_save_count (E : Env) (cod root file : string) (n n' : nat) (s s' : state) :
  transcribe_and_save E cod root file n s = (Ok n', s') → n ≤ n' ≤ n + 1.
Proof.
  rewrite transcribe_and_save_unfold. cbv zeta.
  destruct (exists_in E (fs s) _); [intros [= <- _]; lia|].
  destruct (transcribe_audio_with_whisper E _ _ s) as [[text|e] s1]; [|intros [= <- _]; lia].
  destruct (Str.falsy text); [intros [= <- _]; lia|].
  destruct (write_file E _ text s1) as [[[]|e] s2]; [|intros [= <- _]; lia].
  destruct (write_file E _ _ s2) as [[[]|e] s3]; intros [= <- _]; lia.
Qed.

Lemma transcribe_one_count (E : Env) (i o : string) (rf : string * string)
    (n n' : nat) (s s' : state) :
  transcribe_one E i o rf n s = (Ok n', s') → n ≤ n' ≤ n + 1.
Proof.
  intros (cod & s1 & _ & _ & Hsave & _)%transcribe_one_ok_inv.
  by eapply transcribe_and_save_count.
Qed.

Lemma for_each_count {A} (body : A → nat → M nat) (xs : list A) (n n' : nat) (s s' : state) :
  (∀ x n s n' s', body x n s = (Ok n', s') → n ≤ n' ≤ n + 1) →
  for_each body xs n s = (Ok n', s') → n ≤ n' ≤ n + length xs.
Proof.
  intros Hbody. revert n s. induction xs as [|x xs IH]; intros n s.
  - intros [= <- _]. simpl. lia.
  - rewrite for_each_cons. destruct (body x n s) as [[m|e] sm] eqn:Hx; [|done].
    intros Hrest%IH. apply Hbody in Hx. simpl. lia.
Qed.

(** A file on which the collaborator fails is passed over: nothing is
    written for it and the count stays. *)
Lemma transcribe_and_save_collaborator_error (E : Env) (cod root file : string)
    (n : nat) (s : state) (e : exn) :
  let input_file := PosixPath.join root file in
  exists_in E (fs s) (output_file_of cod file) = false →
  exists_in E (fs s) input_file = true →
  whisper_load_model E "tiny" = Some e
  ∨ (whisper_load_model E "tiny" = None ∧ whisper_transcribe E input_file "en" = Raise e) →
  ∃ s', transcribe_and_save E cod root file n s = (Ok n, s')
        ∧ fs s' = fs s
        ∧ last (log s') = Some (Print (UnexpectedError e)).
Proof.
  intros input_file Hnew Hin Hfail.
  rewrite transcribe_and_save_unfold. cbv zeta. fold input_file.
  rewrite Hnew, transcribe_cases, Hin.
  destruct Hfail as [->|[-> ->]]; simpl; eexists; (split_and!; [done|done|]);
    simpl; by rewrite last_app.
Qed.



(** ** What the walk lists *)

Lemma child_name_spec (c k : list string) (n : string) :
  child_name c k = Some n → k = c ++ [n].
Proof.
  revert k. induction c as [|x c IH]; intros k; simpl.
  - destruct k as [|y [|z k]]; [done| |done]. by intros [= ->].
  - destruct k as [|y k]; [done|]. case_decide; [|done]. subst y.
    intros Hk. by rewrite (IH k Hk).
Qed.

Lemma scandir_spec (t : tree) (c : list string) (n : string) (nd : node) :
  (n, nd) ∈ scandir t c → PosixPath.valid_name n = true ∧ t !! (c ++ [n]) = Some nd.
Proof.
  unfold scandir. rewrite list_elem_of_omap. intros ([k v] & Hin & Hsome). simpl in Hsome.
  destruct (child_name c k) as [n'|] eqn:Hchild; [|done].
  destruct (PosixPath.valid_name n') eqn:Hvalid; [|done].
  injection Hsome as -> ->. apply child_name_spec in Hchild as ->.
  split; [done|]. by apply elem_of_map_to_list in Hin.
Qed.

Lemma walk_from_files (E : Env) (fuel : nat) (t : tree) (top : string)
    (item : string * list string * list string) (file : string) :
  item ∈ walk_from E fuel t top → file ∈ item.2 →
  PosixPath.valid_name file = true
  ∧ ∃ x, t !! (resolve E item.1.1 ++ [file]) = Some (File x).
Proof.
  revert top. induction fuel as [|fuel IH]; intros top; simpl.
  - by intros ?%elem_of_nil.
  - destruct (negb (Str.falsy top) && is_dir_node (node_at t (resolve E top)));
      [|by intros ?%elem_of_nil].
    intros [->|Hin]%elem_of_cons Hfile.
    + simpl in *. apply list_elem_of_fmap in Hfile as ([n nd] & -> & Hf).
      apply list_elem_of_filter in Hf as [Hkind Hf]. apply scandir_spec in Hf as [Hv Hn].
      split; [done|]. destruct nd as [x|]; [by exists x|done].
    + apply list_elem_of_In, in_flat_map in Hin as (d & _ & Hin).
      eapply IH; [|done]. by apply list_elem_of_In.
Qed.

Lemma join_nonempty_r (a b : string) : b ≠ "" → PosixPath.join a b ≠ "".
Proof.
  intros Hb. unfold PosixPath.join.
  destruct (PosixPath.isabs b || Str.falsy a); [done|].
  destruct (PosixPath.ends_with_sep a); intros [_ H]%str_app_eq_nil; [done|discriminate H].
Qed.

(** An audio file that was found is there, under a plain name. *)
Lemma find_audio_files_there (E : Env) (t : tree) (input_dir : string) (rf : string * string) :
  rf ∈ find_audio_files E t input_dir →
  exists_in E t (PosixPath.join rf.1 rf.2) = true ∧ PosixPath.has_sep rf.2 = false.
Proof.
  destruct rf as [root file]. rewrite elem_of_find_audio_files.
  intros (dirs & files & Hitem & Hfile & _). simpl.
  destruct (walk_from_files E _ t input_dir (root, dirs, files) file Hitem Hfile)
    as (Hvalid & x & Hx).
  split; [|by apply valid_name_no_sep]. unfold exists_in, resolve in *. simpl in Hx.
  rewrite abs_comps_join by done.
  assert (PosixPath.join root file ≠ "") as Hne.
  { apply join_nonempty_r. by intros ->. }
  apply falsy_false in Hne as ->. simpl. apply bool_decide_eq_true.
  destruct (PosixPath.abs_comps (cwd E) root); simpl in *; rewrite Hx; by eexists.
Qed.

Lemma depth_bound (t : tree) (c : list string) (n : node) :
  t !! c = Some n → length c ≤ depth t.
Proof.
  intros Hc. unfold depth. apply max_list_elem_of_le.
  apply list_elem_of_fmap. exists c. split; [done|].
  apply list_elem_of_fmap. exists (c, n). split; [done|]. by apply elem_of_map_to_list.
Qed.

Lemma flat_map_ext_elem {A B} (f g : A → list B) (l : list A) :
  (∀ x, x ∈ l → f x = g x) → flat_map f l = flat_map g l.
Proof.
  induction l as [|x l IH]; intros H; [done|]. simpl.
  rewrite (H x) by (by left). rewrite IH; [done|]. intros y Hy. apply H. by right.
Qed.

(** The walk does not depend on the fuel, once the fuel covers what is left
    of the depth of the tree below [top]. *)
Lemma walk_from_enough (E : Env) (t : tree) (fuel1 fuel2 : nat) (top : string) :
  depth t < length (resolve E top) + fuel1 →
  depth t < length (resolve E top) + fuel2 →
  walk_from E fuel1 t top = walk_from E fuel2 t top.
Proof.
  assert (∀ fuel top, depth t < length (resolve E top) →
                      walk_from E fuel t top = []) as Hdeep.
  { intros [|fuel] top' Hd; [done|]. simpl.
    destruct (Str.falsy top'); [done|]. simpl.
    destruct (resolve E top') as [|x c] eqn:Hc; [simpl in Hd; lia|]. simpl.
    destruct (t !! (x :: c)) as [[?|]|] eqn:Hn; [done| |done].
    apply depth_bound in Hn. lia. }
  revert fuel2 top. induction fuel1 as [|fuel1 IH]; intros fuel2 top H1 H2.
  { rewrite !Hdeep; [done|lia|lia]. }
  destruct fuel2 as [|fuel2].
  { rewrite !Hdeep; [done|lia|lia]. }
  simpl. destruct (negb (Str.falsy top) && is_dir_node (node_at t (resolve E top))); [|done].
  f_equal. apply flat_map_ext_elem. intros d Hd.
  apply list_elem_of_fmap in Hd as ([n nd] & -> & Hf).
  apply list_elem_of_filter in Hf as [_ Hf]. apply scandir_spec in Hf as [Hv _]. simpl.
  apply IH; unfold resolve in *; rewrite abs_comps_join by done; rewrite length_app; simpl; lia.
Qed.

(** [os_walk] is the walk with any fuel above the depth of the tree. *)
Lemma os_walk_fuel (E : Env) (t : tree) (top : string) (fuel : nat) :
  depth t < fuel → walk_from E fuel t top = os_walk E t top.
Proof. intros H. unfold os_walk. apply walk_from_enough; lia. Qed.

(** ** Running the transcribe job again *)

Lemma write_file_not_openable (E : Env) (p content : string) (s : state) :
  openable E (fs s) p = false → ∃ e, write_file E p content s = (Raise e, s).
Proof.
  unfold openable, write_file. intros H. destruct (Str.falsy p); [by eexists|].
  run. simpl in H.
  destruct (node_at (fs s) (resolve E p)) as [[?|]|]; simpl in H; try (by eexists);
    (destruct (node_at (fs s) (removelast (resolve E p))) as [[?|]|]; simpl in H;
     try (by eexists); destruct (open_fault E (resolve E p)); [by eexists|done]).
Qed.

Lemma blocked_not_openable (E : Env) (t : tree) (p : string) :
  blocked E t p → openable E t p = false.
Proof.
  unfold blocked, openable. intros [->|[->|[x ->]]]; [done| |].
  - by rewrite andb_false_r.
  - simpl. by rewrite andb_false_r.
Qed.

Lemma blocked_extends (E : Env) (t t' : tree) (p : string) :
  extends t t' → blocked E t p → blocked E t' p.
Proof.
  intros Hext [?|[?|[x Hx]]]; [by left|by right; left|]. right. right.
  by eapply extends_file.
Qed.

(** The three ways a write can go. *)
Lemma write_file_cases (E : Env) (p content : string) (s : state) :
  (openable E (fs s) p = false ∧ ∃ e, write_file E p content s = (Raise e, s))
  ∨ (openable E (fs s) p = true ∧ write_fault E (resolve E p) = true
     ∧ write_file E p content s
       = (Raise (OSError (resolve E p)),
          {| fs := <[resolve E p := File ""]> (fs s); log := log s |}))
  ∨ (openable E (fs s) p = true ∧ write_fault E (resolve E p) = false
     ∧ write_file E p content s
       = (Ok tt, {| fs := <[resolve E p := File content]> (fs s);
                    log := log s ++ [Wrote (resolve E p)] |})).
Proof.
  destruct (openable E (fs s) p) eqn:Hopen.
  - right. unfold openable, write_file in *.
    apply andb_true_iff in Hopen as [[[Hp Hd]%andb_true_iff Hpar]%andb_true_iff Ho].
    apply negb_true_iff in Hp, Hd, Ho. rewrite Hp. run.
    destruct (node_at (fs s) (resolve E p)) as [[?|]|]; try done;
      (destruct (node_at (fs s) (removelast (resolve E p))) as [[?|]|]; try done;
       rewrite Ho; destruct (write_fault E (resolve E p)); [by left|by right]).
  - left. split; [done|]. by apply write_file_not_openable.
Qed.

(** What a write that raised has done. *)
Lemma write_file_raise_inv (E : Env) (p content : string) (s s' : state) (e : exn) :
  write_file E p content s = (Raise e, s') →
  (s' = s ∧ openable E (fs s) p = false) ∨ exists_in E (fs s') p = true.
Proof.
  destruct (write_file_cases E p content s) as [[Hopen [e' ->]]|[(Hopen & _ & ->)|(_ & _ & ->)]].
  - intros [= _ <-]. by left.
  - intros [= _ <-]. right. apply exists_in_insert. unfold openable in Hopen. by intros ->.
  - done.
Qed.

Lemma write_file_ok_exists (E : Env) (p content : string) (s s' : state) :
  write_file E p content s = (Ok tt, s') → exists_in E (fs s') p = true.
Proof.
  destruct (write_file_cases E p content s) as [[Hopen [e' ->]]|[(_ & _ & ->)|(Hopen & _ & ->)]];
    [done|done|].
  intros [= <-]. apply exists_in_insert. unfold openable in Hopen. by intros ->.
Qed.

Lemma settled_extends (E : Env) (i o : string) (t t' : tree) (rf : string * string) :
  extends t t' → settled E i o t rf → settled E i o t' rf.
Proof.
  intros Hext (cod & Hm & Hdir & Hcase). exists cod. split_and!; [done|by eapply extends_exists|].
  destruct Hcase as [Htxt|[Hin Hwhy]]; [left; by eapply extends_exists|].
  right. split; [by eapply extends_exists|].
  destruct Hwhy as [?|Hb]; [by left|right; by eapply blocked_extends].
Qed.

(** The text that comes back for a file that exists. *)
Lemma transcribe_heard (E : Env) (audio_file language : string) (s : state) :
  exists_in E (fs s) audio_file = true →
  ∃ s', transcribe_audio_with_whisper E audio_file language s
        = (Ok (heard E audio_file language), s')
        ∧ fs s' = fs s
        ∧ (∃ added, log s' = log s ++ added
                    ∧ ∀ c, c ∈ calls_of added →
                           c = LoadModel "tiny" ∨ c = Transcribe audio_file language).
Proof.
  intros Hex. rewrite transcribe_cases, Hex. unfold heard.
  destruct (whisper_load_model E "tiny") as [e|].
  - eexists. split_and!; [done..|]. eexists. split; [done|].
    intros c [->|[]%elem_of_nil]%elem_of_cons. by left.
  - destruct (whisper_transcribe E audio_file language) as [text|e];
      (eexists; split_and!; [done..|]; eexists; split; [done|];
       intros c [->|[->|[]%elem_of_nil]%elem_of_cons]%elem_of_cons; auto).
Qed.

(** A settled file is looked at without a change to the tree; the
    collaborator is invoked only when the text file is not there. *)
Lemma settled_noop (E : Env) (i o : string) (rf : string * string) (n : nat) (s : state) :
  settled E i o (fs s) rf →
  ∃ n' s' cod,
    transcribe_one E i o rf n s = (Ok n', s')
    ∧ fs s' = fs s
    ∧ mirrored_dir E i o rf.1 = Some cod
    ∧ ∃ added, log s' = log s ++ added
        ∧ ∀ c, c ∈ calls_of added →
               exists_in E (fs s) (output_file_of cod rf.2) = false
               ∧ (c = LoadModel "tiny" ∨ c = Transcribe (PosixPath.join rf.1 rf.2) "en").
Proof.
  intros (cod & Hm & Hdir & Hcase). destruct rf as [root file]. simpl in *.
  rewrite (transcribe_one_in_existing_dir _ _ _ _ _ _ _ _ Hm Hdir).
  rewrite transcribe_and_save_unfold. cbv zeta.
  destruct (exists_in E (fs s) (output_file_of cod file)) eqn:Htxt.
  - eexists _, _, cod. split_and!; [done..|]. eexists. split; [done|].
    by intros c []%elem_of_nil.
  - destruct Hcase as [?|[Hin Hwhy]]; [done|].
    destruct (transcribe_heard E (PosixPath.join root file) "en" s Hin)
      as (s1 & -> & Hfs & added & Hlog & Hcalls).
    destruct (Str.falsy (heard E (PosixPath.join root file) "en")) eqn:Hheard.
    + eexists _, _, cod. split_and!; [done..|]. exists added. split; [done|].
      intros c Hc. split; [done|]. by apply Hcalls.
    + destruct Hwhy as [Hempty|Hblocked]; [by rewrite Hempty in Hheard|].
      rewrite <-Hfs in Hblocked. apply blocked_not_openable in Hblocked.
      destruct (write_file_not_openable E (output_file_of cod file)
                  (heard E (PosixPath.join root file) "en") s1 Hblocked) as [e ->].
      eexists _, _, cod. split_and!; [done|done|done|].
      eexists. split; [simpl; by rewrite Hlog, <-app_assoc|].
      intros c Hc. split; [done|]. apply Hcalls.
      rewrite calls_of_app in Hc. simpl in Hc. by rewrite app_nil_r in Hc.
Qed.

Lemma txt_name_valid (file : string) :
  PosixPath.has_sep file = false →
  PosixPath.valid_name ((PosixPath.splitext file).1 +:+ ".txt") = true.
Proof.
  intros Hsep%splitext_no_sep. unfold PosixPath.valid_name.
  rewrite has_sep_app, Hsep. simpl.
  assert (∀ x, String.length x < 4 → (PosixPath.splitext file).1 +:+ ".txt" ≠ x) as Hlen.
  { intros x Hx Heq. rewrite <-Heq, length_app_str in Hx. simpl in Hx. lia. }
  rewrite !bool_decide_eq_false_2; [done|apply Hlen; simpl; lia..].
Qed.

Lemma parent_of_output_file (E : Env) (cod file : string) :
  PosixPath.has_sep file = false →
  removelast (resolve E (output_file_of cod file)) = resolve E cod.
Proof.
  intros Hsep. unfold resolve, output_file_of.
  rewrite abs_comps_join by (by apply txt_name_valid). by rewrite removelast_last.
Qed.

Lemma exists_in_false_node (E : Env) (t : tree) (p : string) :
  exists_in E t p = false → p ≠ "" → node_at t (resolve E p) = None.
Proof.
  unfold exists_in. intros H Hp. apply falsy_false in Hp. rewrite Hp in H. simpl in H.
  apply bool_decide_eq_false in H. by apply eq_None_not_Some.
Qed.

Lemma exists_in_true_node (E : Env) (t : tree) (p : string) :
  exists_in E t p = true → is_Some (node_at t (resolve E p)).
Proof.
  unfold exists_in. intros [_ H]%andb_true_iff. by apply bool_decide_eq_true in H.
Qed.

(** A text file that cannot be opened in a directory that is there stays
    out of reach. *)
Lemma not_openable_blocked (E : Env) (t : tree) (cod file : string) :
  PosixPath.has_sep file = false →
  exists_in E t cod = true →
  exists_in E t (output_file_of cod file) = false →
  openable E t (output_file_of cod file) = false →
  blocked E t (output_file_of cod file).
Proof.
  intros Hsep Hdir Hnew Hopen. unfold blocked.
  destruct (Str.falsy (output_file_of cod file)) eqn:Hp; [by left|]. right.
  destruct (open_fault E (resolve E (output_file_of cod file))) eqn:Ho; [by left|]. right.
  unfold openable in Hopen. rewrite Hp, Ho in Hopen.
  rewrite (exists_in_false_node _ _ _ Hnew) in Hopen by (by apply falsy_false).
  simpl in Hopen. rewrite andb_true_r in Hopen.
  rewrite parent_of_output_file in * by done.
  destruct (exists_in_true_node _ _ _ Hdir) as [[x|] Hn]; rewrite Hn in *; [by eexists|done].
Qed.

(** A turn of the loop that returned has settled its file. *)
Lemma transcribe_one_settles (E : Env) (i o : string) (rf : string * string)
    (n n' : nat) (s s' : state) :
  transcribe_one E i o rf n s = (Ok n', s') →
  exists_in E (fs s) (PosixPath.join rf.1 rf.2) = true →
  PosixPath.has_sep rf.2 = false →
  settled E i o (fs s') rf.
Proof.
  intros Hone Hin Hsep.
  apply transcribe_one_ok_inv in Hone as (cod & s1 & Hm & Hdir & Hsave & Hex).
  exists cod. split_and!; [done..|].
  pose proof (adds_ensure_dir E any_event (λ _, I) cod s) as [G1 _].
  rewrite Hdir in G1. simpl in G1.
  apply ensure_dir_ok_exists in Hdir as Hcod.
  pose proof (extends_exists E _ _ _ G1 Hin) as Hin1.
  revert Hsave. rewrite transcribe_and_save_unfold. cbv zeta.
  destruct (exists_in E (fs s1) (output_file_of cod rf.2)) eqn:Htxt.
  { intros [= _ <-]. by left. }
  destruct (transcribe_heard E (PosixPath.join rf.1 rf.2) "en" s1 Hin1)
    as (s2 & -> & Hfs & _).
  destruct (Str.falsy (heard E (PosixPath.join rf.1 rf.2) "en")) eqn:Hheard.
  { intros [= _ <-]. right. rewrite Hfs. split; [done|]. left. by apply falsy_true. }
  destruct (write_file E (output_file_of cod rf.2) _ s2) as [[[]|e] s3] eqn:Hw1.
  - apply write_file_ok_exists in Hw1.
    pose proof (adds_write_file E any_event (λ _, I) (json_output_of cod rf.2)
                  (Json.dumps_indent2 (sidecar (PosixPath.join rf.1 rf.2)
                     (heard E (PosixPath.join rf.1 rf.2) "en"))) s3) as [G3 _].
    destruct (write_file E (json_output_of cod rf.2) _ s3) as [[[]|e] s4];
      intros [= _ <-]; left; by eapply extends_exists.
  - intros [= _ <-]. simpl.
    apply write_file_raise_inv in Hw1 as [[-> Hopen]|Hthere]; [|by left].
    right. rewrite Hfs. split; [done|]. right.
    rewrite Hfs in Hopen. by apply not_openable_blocked.
Qed.

(** After a run of the loop that returned, every file of the list is
    settled. *)
Lemma transcribe_all_settles (E : Env) (i o : string) (l : list (string * string))
    (n n' : nat) (s s' : state) :
  transcribe_all E i o l n s = (Ok n', s') →
  (∀ rf, rf ∈ l → exists_in E (fs s) (PosixPath.join rf.1 rf.2) = true
                  ∧ PosixPath.has_sep rf.2 = false) →
  ∀ rf, rf ∈ l → settled E i o (fs s') rf.
Proof.
  intros Hrun Hl rf Hin. unfold transcribe_all in Hrun.
  destruct (for_each_ok_elem _ _ _ _ _ _ rf (monotone_transcribe_one E i o) Hrun Hin)
    as (n1 & s1 & n2 & s2 & [G1 _] & Hturn & [G2 _]).
  destruct (Hl rf Hin) as [Hex Hsep].
  eapply settled_extends; [done|]. eapply transcribe_one_settles; [done| |done].
  by eapply extends_exists.
Qed.

(** A run of the loop over settled files leaves the tree as it is, and
    invokes the inference only for files whose text is not there. *)
Lemma transcribe_all_noop (E : Env) (i o : string) (l : list (string * string))
    (n : nat) (s : state) :
  (∀ rf, rf ∈ l → settled E i o (fs s) rf) →
  ∃ n' s',
    transcribe_all E i o l n s = (Ok n', s')
    ∧ fs s' = fs s
    ∧ (∃ added, log s' = log s ++ added
         ∧ ∀ c, c ∈ calls_of added →
             ∃ rf cod, rf ∈ l
               ∧ mirrored_dir E i o rf.1 = Some cod
               ∧ exists_in E (fs s) (output_file_of cod rf.2) = false
               ∧ (c = LoadModel "tiny" ∨ c = Transcribe (PosixPath.join rf.1 rf.2) "en")).
Proof.
  unfold transcribe_all. revert n s. induction l as [|rf l IH]; intros n s Hl.
  - eexists _, _. split_and!; [done..|]. exists []. rewrite app_nil_r. split; [done|].
    by intros c []%elem_of_nil.
  - rewrite for_each_cons.
    destruct (settled_noop E i o rf n s)
      as (n1 & s1 & cod & -> & Hfs1 & Hm & added1 & Hlog1 & Hcalls1).
    { apply Hl. by left. }
    destruct (IH n1 s1) as (n2 & s2 & -> & Hfs2 & added2 & Hlog2 & Hcalls2).
    { intros rf' Hin. rewrite Hfs1. apply Hl. by right. }
    eexists _, _. split_and!; [done|by rewrite Hfs2|].
    exists (added1 ++ added2). split; [by rewrite Hlog2, Hlog1, app_assoc|].
    intros c. rewrite calls_of_app, elem_of_app. intros [Hc|Hc].
    + destruct (Hcalls1 c Hc) as [Hnew Hwhich]. exists rf, cod. split_and!; [by left|done..].
    + destruct (Hcalls2 c Hc) as (rf' & cod' & Hin & Hm' & Hnew & Hwhich).
      exists rf', cod'. rewrite Hfs1 in Hnew. split_and!; [by right|done..].
Qed.

(** A second run that finds no audio file the first did not leaves the tree
    as it is. *)
Lemma second_run_noop (E : Env) (input_dir output_dir : string)
    (s s1 : state) (n1 : nat) :
  process_audio_directory E input_dir output_dir s = (Ok n1, s1) →
  enumerated_audio E input_dir output_dir s1 ⊆ enumerated_audio E input_dir output_dir s →
  ∃ n2 s2,
    process_audio_directory E input_dir output_dir s1 = (Ok n2, s2)
    ∧ fs s2 = fs s1
    ∧ (∀ c, c ∈ calls_of (new_events s1 s2) →
         ∃ rf current_output_dir,
           rf ∈ enumerated_audio E input_dir output_dir s1
           ∧ mirrored_dir E input_dir output_dir rf.1 = Some current_output_dir
           ∧ exists_in E (fs s1) (output_file_of current_output_dir rf.2) = false
           ∧ (c = LoadModel "tiny" ∨ c = Transcribe (PosixPath.join rf.1 rf.2) "en"))
    ∧ (∀ rf current_output_dir,
         rf ∈ enumerated_audio E input_dir output_dir s1 →
         mirrored_dir E input_dir output_dir rf.1 = Some current_output_dir →
         exists_in E (fs s1) (output_file_of current_output_dir rf.2) = true →
         ∀ n s', fs s' = fs s1 →
           transcribe_one E input_dir output_dir rf n s'
           = (Ok (n + 1), say (Skipping (PosixPath.join rf.1 rf.2)) s')).
Proof.
  intros Hrun Hsame. pose proof Hrun as Hrun1.
  rewrite process_audio_directory_unfold in Hrun1. unfold enumerated_audio in Hsame at 2.
  destruct (ensure_dir E output_dir s) as [[[]|e] s0] eqn:Hdir; [|done]. simpl in Hsame.
  set (l := find_audio_files E (fs s0) input_dir) in *.
  assert (∀ rf, rf ∈ l → settled E input_dir output_dir (fs s1) rf) as Hsettled.
  { eapply transcribe_all_settles; [exact Hrun1|]. intros rf Hin. simpl.
    by eapply find_audio_files_there. }
  assert (exists_in E (fs s1) output_dir = true) as Hout.
  { apply ensure_dir_ok_exists in Hdir.
    pose proof (adds_for_each any_event _ l 0 (monotone_transcribe_one E input_dir output_dir)
                  (say (Found (length l)) s0)) as [G _].
    unfold transcribe_all in Hrun1. rewrite Hrun1 in G. by eapply extends_exists. }
  assert (enumerated_audio E input_dir output_dir s1 = find_audio_files E (fs s1) input_dir)
    as Henum.
  { unfold enumerated_audio. by rewrite (ensure_dir_existing _ _ _ Hout). }
  rewrite Henum in *.
  rewrite process_audio_directory_unfold, (ensure_dir_existing _ _ _ Hout).
  set (l2 := find_audio_files E (fs s1) input_dir) in *.
  destruct (transcribe_all_noop E input_dir output_dir l2 0 (say (Found (length l2)) s1))
    as (n2 & s2 & Hrun2 & Hfs & added & Hlog & Hcalls).
  { intros rf Hin. simpl. apply Hsettled, Hsame, Hin. }
  exists n2, s2. split_and!; [done|done| |].
  - intros c Hc. erewrite new_events_app in Hc; [|rewrite Hlog; simpl; by rewrite <-app_assoc].
    rewrite calls_of_app in Hc. simpl in Hc. by apply Hcalls.
  - intros rf cod Hin Hm Htxt n s' Hfs'.
    destruct (Hsettled rf (Hsame rf Hin)) as (cod' & Hm' & Hcod & _).
    rewrite Hm in Hm'. injection Hm' as <-. destruct rf as [root file]. simpl in *.
    rewrite (transcribe_one_in_existing_dir E input_dir output_dir root file cod)
      by (by rewrite ?Hfs').
    apply transcribe_and_save_skips. by rewrite Hfs'.
Qed.

(** ** The audio files of the tree after a run *)

Lemma well_formed_spec (t : tree) :
  well_formed t = true ↔ ∀ k n, t !! k = Some n → node_at t (removelast k) = Some Dir.
Proof.
  unfold well_formed. rewrite forallb_forall. split.
  - intros H k n Hk. specialize (H (k, n)). simpl in H.
    eapply bool_decide_eq_true_1, H, list_elem_of_In. by apply elem_of_map_to_list.
  - intros H [k n] Hin. simpl. apply bool_decide_eq_true_2, (H k n).
    by apply elem_of_map_to_list, list_elem_of_In.
Qed.

(** In a well-formed tree, what lies above a path is a directory. *)
Lemma well_formed_above (t : tree) (k k' : list string) (n : node) :
  well_formed t = true → t !! (k ++ k') = Some n → k' ≠ [] → node_at t k = Some Dir.
Proof.
  intros Hwf. rewrite well_formed_spec in Hwf. revert n.
  induction k' as [|x k' IH] using rev_ind; intros n Hk Hne; [done|].
  apply Hwf in Hk. rewrite app_assoc, removelast_last in Hk.
  destruct k' as [|y k'].
  - by rewrite app_nil_r in Hk.
  - rewrite node_at_lookup in Hk by (by destruct k). by eapply IH.
Qed.

Lemma removelast_neq (c : list string) : c ≠ [] → removelast c ≠ c.
Proof.
  intros Hc Heq. destruct (exists_last Hc) as (c' & x & ->).
  rewrite removelast_last in Heq. apply (f_equal length) in Heq.
  rewrite length_app in Heq. simpl in Heq. lia.
Qed.

Lemma well_formed_insert (t : tree) (c : list string) (n : node) :
  well_formed t = true → c ≠ [] →
  node_at t (removelast c) = Some Dir →
  (n = Dir ∨ node_at t c ≠ Some Dir) →
  well_formed (<[c := n]> t) = true.
Proof.
  rewrite !well_formed_spec. intros Hwf Hc Hpar Hn k n' Hk.
  destruct (decide (removelast k = [])) as [->|Hp]; [done|].
  rewrite node_at_lookup by done.
  destruct (decide (c = k)) as [<-|Hck].
  - rewrite lookup_insert_ne by (by apply not_eq_sym, removelast_neq).
    by rewrite <-node_at_lookup.
  - rewrite lookup_insert_ne in Hk by done. apply Hwf in Hk.
    destruct (decide (c = removelast k)) as [Heq|Hne].
    + rewrite <-Heq in *. rewrite lookup_insert_eq.
      destruct Hn as [->|Hn]; [done|]. by destruct Hn.
    + rewrite lookup_insert_ne by done. by rewrite <-node_at_lookup.
Qed.

Lemma keeps_audio_refl (t : tree) : keeps_audio t t.
Proof. by intros c n x. Qed.

Lemma keeps_audio_trans (t1 t2 t3 : tree) :
  keeps_audio t1 t2 → keeps_audio t2 t3 → keeps_audio t1 t3.
Proof. intros H12 H23 c n x Hc Hn. apply H12; [|done]. by apply H23. Qed.

Lemma keeps_audio_insert_dir (t : tree) (c : list string) : keeps_audio t (<[c := Dir]> t).
Proof.
  intros k n x Hk _. destruct (decide (c = k ++ [n])) as [->|Hne].
  - by rewrite lookup_insert_eq in Hk.
  - by rewrite lookup_insert_ne in Hk.
Qed.

Lemma keeps_audio_insert_file (t : tree) (c : list string) (m x : string) :
  is_audio m = false → keeps_audio t (<[c ++ [m] := File x]> t).
Proof.
  intros Hm k n y Hk Hn. destruct (decide (c ++ [m] = k ++ [n])) as [Heq|Hne].
  - apply app_inj_tail in Heq as [_ ->]. congruence.
  - by rewrite lookup_insert_ne in Hk.
Qed.

Lemma tidy_refl (t : tree) : tidy t t.
Proof. intros Hwf. split; [done|apply keeps_audio_refl]. Qed.

Lemma tidy_trans (t1 t2 t3 : tree) : tidy t1 t2 → tidy t2 t3 → tidy t1 t3.
Proof.
  intros H12 H23 Hwf. destruct (H12 Hwf) as [Hwf2 K12]. destruct (H23 Hwf2) as [Hwf3 K23].
  split; [done|]. by eapply keeps_audio_trans.
Qed.

Lemma keeps_ret {A} (a : A) : keeps (mret a : M A).
Proof. intros s. apply tidy_refl. Qed.

Lemma keeps_raise {A} (e : exn) : keeps (raise e : M A).
Proof. intros s. apply tidy_refl. Qed.

Lemma keeps_bind {A B} (m : M A) (k : A → M B) :
  keeps m → (∀ a, keeps (k a)) → keeps (m ≫= k).
Proof.
  intros Hm Hk s. unfold mbind, M_bind. specialize (Hm s).
  destruct (m s) as [[a|e] s']; simpl in *; [|done].
  eapply tidy_trans; [done|apply Hk].
Qed.

Lemma keeps_try {A} (m : M A) (h : exn → M A) :
  keeps m → (∀ e, keeps (h e)) → keeps (try_except m h).
Proof.
  intros Hm Hh s. unfold try_except. specialize (Hm s).
  destruct (m s) as [[a|e] s']; simpl in *; [done|].
  eapply tidy_trans; [done|apply Hh].
Qed.

Lemma keeps_emit (ev : event) : keeps (emit ev).
Proof. intros s. apply tidy_refl. Qed.

Lemma keeps_from_fs {A} (k : tree → M A) :
  (∀ s, tidy (fs s) (fs (k (fs s) s).2)) → keeps (get_fs ≫= k).
Proof. intros Hk s. apply Hk. Qed.

Lemma keeps_mkdir (E : Env) (c : list string) : keeps (mkdir E c).
Proof.
  unfold mkdir. apply keeps_from_fs. intros s.
  destruct (node_at (fs s) c) eqn:Hc; [apply tidy_refl|].
  destruct (node_at (fs s) (removelast c)) as [[?|]|] eqn:Hpar; try apply tidy_refl.
  destruct (mkdir_fault E c); [apply tidy_refl|]. simpl.
  intros Hwf. split; [|apply keeps_audio_insert_dir].
  apply well_formed_insert; [done|by intros ->|done|by left].
Qed.

Lemma keeps_makedirs_at (E : Env) (rc : list string) : keeps (makedirs_at E rc).
Proof.
  induction rc as [|x rc IH]; simpl; [apply keeps_mkdir|].
  apply keeps_from_fs. intros s.
  pose proof (keeps_mkdir E (rev (x :: rc))) as Hmk.
  case_bool_decide.
  - apply (keeps_bind (mret tt) (λ _, mkdir E (rev (x :: rc)))); [apply keeps_ret|done].
  - apply (keeps_bind (try_except (makedirs_at E rc) _) (λ _, mkdir E (rev (x :: rc))));
      [|done].
    apply keeps_try; [done|]. intros []; (apply keeps_ret || apply keeps_raise).
Qed.

Lemma keeps_ensure_dir (E : Env) (d : string) : keeps (ensure_dir E d).
Proof.
  unfold ensure_dir, path_exists. apply keeps_bind.
  - apply keeps_from_fs. intros s. apply tidy_refl.
  - intros []; simpl; [apply keeps_ret|].
    unfold makedirs. destruct (Str.falsy d); [apply keeps_raise|apply keeps_makedirs_at].
Qed.

Lemma keeps_write_file (E : Env) (p content : string) (c : list string) (m : string) :
  resolve E p = c ++ [m] → is_audio m = false → keeps (write_file E p content).
Proof.
  intros Hp Hm. unfold write_file. destruct (Str.falsy p); [apply keeps_raise|].
  apply keeps_from_fs. intros s.
  assert (∀ x, node_at (fs s) (resolve E p) ≠ Some Dir →
               node_at (fs s) (removelast (resolve E p)) = Some Dir →
               tidy (fs s) (<[resolve E p := File x]> (fs s))) as Hins.
  { intros x Hn Hpar Hwf. split.
    - apply well_formed_insert; [done|by rewrite Hp; destruct c|done|by right].
    - rewrite Hp. by apply keeps_audio_insert_file. }
  destruct (node_at (fs s) (resolve E p)) as [[?|]|] eqn:Hc; try apply tidy_refl;
    (destruct (node_at (fs s) (removelast (resolve E p))) as [[?|]|] eqn:Hpar;
     try apply tidy_refl;
     destruct (open_fault E (resolve E p)); [apply tidy_refl|];
     destruct (write_fault E (resolve E p)); by apply Hins).
Qed.

Lemma lower_app (a b : string) : Str.lower (a +:+ b) = Str.lower a +:+ Str.lower b.
Proof. induction a as [|x a IH]; [done|]. rewrite !str_app_cons. simpl. by rewrite IH. Qed.

Lemma last_char_eq (a b : string) (x y : ascii) :
  a +:+ String x "" = b +:+ String y "" → x = y.
Proof.
  revert b. induction a as [|u a IH]; intros [|v b].
  - by intros [= ->].
  - rewrite str_app_nil_l, str_app_cons. intros [= _ H]. symmetry in H.
    by apply str_app_eq_nil in H as [_ ?].
  - rewrite str_app_nil_l, str_app_cons. intros [= _ H].
    by apply str_app_eq_nil in H as [_ ?].
  - rewrite !str_app_cons. intros [= _ H]. by eapply IH.
Qed.

(** A name whose last character, lowercased, is none of [v], [3], [c] is
    no audio file. *)
Lemma not_audio_by_last_char (stem : string) (x : ascii) :
  Str.lower_char x ≠ "v"%char → Str.lower_char x ≠ "3"%char → Str.lower_char x ≠ "c"%char →
  is_audio (stem +:+ String x "") = false.
Proof.
  intros Hv H3 Hc. destruct (is_audio _) eqn:Ha; [|done]. exfalso.
  unfold is_audio in Ha. apply endswith_any_spec in Ha as (st & suf & Hin & Heq).
  rewrite lower_app in Heq. simpl in Heq.
  assert (∃ suf' y, suf = suf' +:+ String y ""
                    ∧ (y = "v" ∨ y = "3" ∨ y = "c")%char) as (suf' & y & -> & Hy).
  { repeat (apply elem_of_cons in Hin as [->|Hin]).
    - exists "_audio.wa", "v"%char. auto.
    - exists ".mp", "3"%char. auto.
    - exists ".aa", "c"%char. auto.
    - exists ".fla", "c"%char. auto.
    - by apply elem_of_nil in Hin. }
  rewrite <-str_app_assoc in Heq. apply last_char_eq in Heq.
  destruct Hy as [-> | [-> | ->]]; done.
Qed.

Lemma not_audio_txt (stem : string) : is_audio (stem +:+ ".txt") = false.
Proof.
  change ".txt" with (".tx" +:+ "t"). rewrite <-str_app_assoc.
  by apply not_audio_by_last_char.
Qed.

Lemma not_audio_json (stem : string) : is_audio (stem +:+ ".json") = false.
Proof.
  change ".json" with (".jso" +:+ "n"). rewrite <-str_app_assoc.
  by apply not_audio_by_last_char.
Qed.

Lemma json_name_valid (file : string) :
  PosixPath.has_sep file = false →
  PosixPath.valid_name ((PosixPath.splitext file).1 +:+ ".json") = true.
Proof.
  intros Hsep%splitext_no_sep. unfold PosixPath.valid_name.
  rewrite has_sep_app, Hsep. simpl.
  assert (∀ x, String.length x < 5 → (PosixPath.splitext file).1 +:+ ".json" ≠ x) as Hlen.
  { intros x Hx Heq. rewrite <-Heq, length_app_str in Hx. simpl in Hx. lia. }
  rewrite !bool_decide_eq_false_2; [done|apply Hlen; simpl; lia..].
Qed.

Lemma keeps_transcribe (E : Env) (f l : string) : keeps (transcribe_audio_with_whisper E f l).
Proof.
  intros s. destruct (transcribe_audio_with_whisper E f l s) as [r s1] eqn:Hrun.
  apply transcribe_keeps_tree in Hrun. simpl. rewrite Hrun. apply tidy_refl.
Qed.

Lemma keeps_transcribe_and_save (E : Env) (cod root file : string) (n : nat) :
  PosixPath.has_sep file = false → keeps (transcribe_and_save E cod root file n).
Proof.
  intros Hsep.
  assert (∀ x, keeps (write_file E (output_file_of cod file) x)) as Htxt.
  { intros x. eapply keeps_write_file; [|apply not_audio_txt].
    unfold resolve, output_file_of. by rewrite abs_comps_join by (by apply txt_name_valid). }
  assert (∀ x, keeps (write_file E (json_output_of cod file) x)) as Hjson.
  { intros x. eapply keeps_write_file; [|apply not_audio_json].
    unfold resolve, json_output_of. by rewrite abs_comps_join by (by apply json_name_valid). }
  unfold transcribe_and_save, path_exists, print.
  apply keeps_try.
  - apply keeps_bind; [apply keeps_from_fs; intros s; apply tidy_refl|].
    intros []; [apply keeps_bind; [apply keeps_emit|]; intros _; apply keeps_ret|].
    apply keeps_bind; [apply keeps_transcribe|].
    intros text. destruct (negb (Str.falsy text)); [|apply keeps_ret].
    apply keeps_bind; [apply Htxt|]. intros _.
    apply keeps_bind; [apply Hjson|]. intros _. apply keeps_ret.
  - intros e. apply keeps_bind; [apply keeps_emit|]. intros _. apply keeps_ret.
Qed.

Lemma keeps_transcribe_one (E : Env) (i o : string) (rf : string * string) (n : nat) :
  PosixPath.has_sep rf.2 = false → keeps (transcribe_one E i o rf n).
Proof.
  intros Hsep. unfold transcribe_one, mirror.
  apply keeps_bind.
  - destruct (mirrored_dir E i o rf.1); [apply keeps_ret|apply keeps_raise].
  - intros cod. apply keeps_bind; [apply keeps_ensure_dir|]. intros _.
    by apply keeps_transcribe_and_save.
Qed.

Lemma keeps_for_each {A} (body : A → nat → M nat) (xs : list A) (n : nat) :
  (∀ x n, x ∈ xs → keeps (body x n)) → keeps (for_each body xs n).
Proof.
  revert n. induction xs as [|x xs IH]; intros n Hbody; simpl; [apply keeps_ret|].
  apply keeps_bind; [apply Hbody; by left|].
  intros n'. apply IH. intros y m Hy. apply Hbody. by right.
Qed.

(** *** The walk of a tree that has grown *)

Lemma child_name_app (c : list string) (n : string) : child_name c (c ++ [n]) = Some n.
Proof. induction c as [|x c IH]; simpl; [done|]. by rewrite decide_True. Qed.

Lemma scandir_complete (t : tree) (c : list string) (n : string) (nd : node) :
  PosixPath.valid_name n = true → t !! (c ++ [n]) = Some nd → (n, nd) ∈ scandir t c.
Proof.
  intros Hv Hn. unfold scandir. rewrite list_elem_of_omap. exists (c ++ [n], nd).
  split; [by apply elem_of_map_to_list|]. simpl. by rewrite child_name_app, Hv.
Qed.

(** The files listed for a root are all the files directly under it. *)
Lemma walk_from_lists_file (E : Env) (fuel : nat) (t : tree) (top : string)
    (item : string * list string * list string) (file x : string) :
  item ∈ walk_from E fuel t top →
  PosixPath.valid_name file = true →
  t !! (resolve E item.1.1 ++ [file]) = Some (File x) →
  file ∈ item.2.
Proof.
  revert top. induction fuel as [|fuel IH]; intros top; simpl.
  - by intros ?%elem_of_nil.
  - destruct (negb (Str.falsy top) && is_dir_node (node_at t (resolve E top)));
      [|by intros ?%elem_of_nil].
    intros [->|Hin]%elem_of_cons Hv Hfile.
    + simpl in *. apply list_elem_of_fmap. exists (file, File x). split; [done|].
      apply list_elem_of_filter. split; [done|]. by apply scandir_complete.
    + apply list_elem_of_In, in_flat_map in Hin as (d & _ & Hin).
      eapply IH; [|done..]. by apply list_elem_of_In.
Qed.

(** The roots of a walk lie below its top. *)
Lemma walk_from_below (E : Env) (fuel : nat) (t : tree) (top : string)
    (item : string * list string * list string) :
  item ∈ walk_from E fuel t top → ∃ ds, resolve E item.1.1 = resolve E top ++ ds.
Proof.
  revert top. induction fuel as [|fuel IH]; intros top; simpl.
  - by intros ?%elem_of_nil.
  - destruct (negb (Str.falsy top) && is_dir_node (node_at t (resolve E top)));
      [|by intros ?%elem_of_nil].
    intros [->|Hin]%elem_of_cons.
    + exists []. by rewrite app_nil_r.
    + apply list_elem_of_In, in_flat_map in Hin as (d & Hd & Hin).
      apply list_elem_of_In, list_elem_of_fmap in Hd as ([n nd] & -> & Hf).
      apply list_elem_of_filter in Hf as [_ Hf]. apply scandir_spec in Hf as [Hv _].
      apply list_elem_of_In, IH in Hin as [ds Hds]. simpl in Hds.
      unfold resolve in *. rewrite abs_comps_join in Hds by done.
      exists (n :: ds). by rewrite Hds, <-app_assoc.
Qed.

(** A root the walk of [t1] reaches is reached by the walk of [t0] when
    all that lies above it is a directory of [t0] too. *)
Lemma walk_from_subtree (E : Env) (t0 t1 : tree) (fuel : nat) (top : string)
    (item : string * list string * list string) :
  item ∈ walk_from E fuel t1 top →
  (∀ k ds, resolve E item.1.1 = k ++ ds → node_at t0 k = Some Dir) →
  ∃ dirs files, (item.1.1, dirs, files) ∈ walk_from E fuel t0 top.
Proof.
  revert top. induction fuel as [|fuel IH]; intros top; simpl.
  - by intros ?%elem_of_nil.
  - destruct (Str.falsy top) eqn:Htop; simpl; [by intros ?%elem_of_nil|].
    destruct (is_dir_node (node_at t1 (resolve E top))); [|by intros ?%elem_of_nil].
    intros [->|Hin]%elem_of_cons Hdirs.
    + simpl in Hdirs. rewrite (Hdirs (resolve E top) []) by (by rewrite app_nil_r). simpl.
      eexists _, _. by left.
    + apply list_elem_of_In, in_flat_map in Hin as (d & Hd & Hin).
      apply list_elem_of_In, list_elem_of_fmap in Hd as ([n nd] & -> & Hf).
      apply list_elem_of_filter in Hf as [_ Hf]. apply scandir_spec in Hf as [Hv _].
      simpl in Hin. apply list_elem_of_In in Hin.
      destruct (walk_from_below E _ _ _ _ Hin) as [ds Hds].
      assert (resolve E (PosixPath.join top n) = resolve E top ++ [n]) as Hjoin
        by (by apply abs_comps_join).
      rewrite Hjoin in Hds.
      rewrite (Hdirs (resolve E top) ([n] ++ ds)) by (by rewrite Hds, <-app_assoc). simpl.
      pose proof (Hdirs (resolve E top ++ [n]) ds Hds) as Hn.
      rewrite node_at_lookup in Hn by (by destruct (resolve E top)).
      destruct (IH _ Hin Hdirs) as (dirs & files & Hitem).
      exists dirs, files. right. apply list_elem_of_In, in_flat_map. exists n.
      split; [|by apply list_elem_of_In].
      apply list_elem_of_In, list_elem_of_fmap. exists (n, Dir). split; [done|].
      apply list_elem_of_filter. split; [done|]. by apply scandir_complete.
Qed.

(** The audio files found in a tree that has grown by directories and by
    files that are no audio files were found before. *)
Lemma find_audio_files_stable (E : Env) (t0 t1 : tree) (input_dir : string) :
  well_formed t0 = true → keeps_audio t0 t1 →
  find_audio_files E t1 input_dir ⊆ find_audio_files E t0 input_dir.
Proof.
  intros Hwf Hkeep [root file]. rewrite !elem_of_find_audio_files.
  intros (dirs & files & Hitem & Hfile & Haudio).
  destruct (walk_from_files E _ t1 input_dir _ file Hitem Hfile) as (Hv & x & Hx).
  simpl in Hx. apply (Hkeep _ _ _) in Hx as Hx0; [|done].
  rewrite <-(os_walk_fuel E t1 input_dir (S (depth t0 `max` depth t1))) in Hitem by lia.
  destruct (walk_from_subtree E t0 t1 _ _ _ Hitem) as (dirs0 & files0 & Hitem0).
  { simpl. intros k ds Hk. rewrite Hk, <-app_assoc in Hx0.
    eapply well_formed_above; [done..|]. by destruct ds. }
  rewrite os_walk_fuel in Hitem0 by lia. cbn [fst snd] in Hitem0.
  exists dirs0, files0. split_and!; [done| |done].
  by eapply (walk_from_lists_file E _ t0 input_dir (root, dirs0, files0)).
Qed.

(** A run of the transcribe job that starts in a well-formed tree adds no
    audio file: a second run finds no file the first did not. *)
Lemma enumeration_is_stable (E : Env) (input_dir output_dir : string) (s s1 : state) (n1 : nat) :
  well_formed (fs s) = true →
  process_audio_directory E input_dir output_dir s = (Ok n1, s1) →
  enumerated_audio E input_dir output_dir s1 ⊆ enumerated_audio E input_dir output_dir s.
Proof.
  intros Hwf Hrun. rewrite process_audio_directory_unfold in Hrun.
  unfold enumerated_audio at 2.
  pose proof (keeps_ensure_dir E output_dir s Hwf) as [Hwf0 _].
  destruct (ensure_dir E output_dir s) as [[[]|e] s0] eqn:Hdir; [|done]. simpl in *.
  set (l := find_audio_files E (fs s0) input_dir) in *.
  pose proof (keeps_for_each (transcribe_one E input_dir output_dir) l 0) as Hkeep.
  specialize (Hkeep (λ rf n Hin, keeps_transcribe_one E input_dir output_dir rf n
                        (proj2 (find_audio_files_there E _ _ rf Hin)))
                    (say (Found (length l)) s0) Hwf0).
  unfold transcribe_all in Hrun. rewrite Hrun in Hkeep. destruct Hkeep as [_ Hkeep].
  assert (exists_in E (fs s1) output_dir = true) as Hout.
  { apply ensure_dir_ok_exists in Hdir.
    pose proof (adds_for_each any_event _ l 0 (monotone_transcribe_one E input_dir output_dir)
                  (say (Found (length l)) s0)) as [G _].
    rewrite Hrun in G. by eapply extends_exists. }
  unfold enumerated_audio. rewrite (ensure_dir_existing _ _ _ Hout).
  by apply find_audio_files_stable.
Qed.

(** C2: when a run of the transcribe job that started in a well-formed
    tree has returned, a second run returns too and leaves every file of the
    tree as the first run left it; it finds no audio file that the first did
    not, and it invokes the inference collaborator only for files whose text
    file does not exist: a file whose text file exists is counted and
    skipped. *)
Theorem second_run_changes_nothing (E : Env) (input_dir output_dir : string)
    (s s1 : state) (n1 : nat) :
  well_formed (fs s) = true →
  process_audio_directory E input_dir output_dir s = (Ok n1, s1) →
  ∃ n2 s2,
    process_audio_directory E input_dir output_dir s1 = (Ok n2, s2)
    ∧ fs s2 = fs s1
    ∧ enumerated_audio E input_dir output_dir s1 ⊆ enumerated_audio E input_dir output_dir s
    ∧ (∀ c, c ∈ calls_of (new_events s1 s2) →
         ∃ rf current_output_dir,
           rf ∈ enumerated_audio E input_dir output_dir s1
           ∧ mirrored_dir E input_dir output_dir rf.1 = Some current_output_dir
           ∧ exists_in E (fs s1) (output_file_of current_output_dir rf.2) = false
           ∧ (c = LoadModel "tiny" ∨ c = Transcribe (PosixPath.join rf.1 rf.2) "en"))
    ∧ (∀ rf current_output_dir,
         rf ∈ enumerated_audio E input_dir output_dir s1 →
         mirrored_dir E input_dir output_dir rf.1 = Some current_output_dir →
         exists_in E (fs s1) (output_file_of current_output_dir rf.2) = true →
         ∀ n s', fs s' = fs s1 →
           transcribe_one E input_dir output_dir rf n s'
           = (Ok (n + 1), say (Skipping (PosixPath.join rf.1 rf.2)) s')).
Proof.
  intros Hwf Hrun.
  pose proof (enumeration_is_stable E input_dir output_dir s s1 n1 Hwf Hrun) as Hsame.
  destruct (second_run_noop E input_dir output_dir s s1 n1 Hrun Hsame)
    as (n2 & s2 & Hrun2 & Hfs & Hcalls & Hskip).
  exists n2, s2. by split_and!.
Qed.

(** C2 in the sample world, with the outputs written next to the inputs as
    the entry point of the repository does: the clip is transcribed by the
    first run and skipped by the second. *)
Lemma second_run_changes_nothing_witness :
  ∃ s1 n2 s2,
    process_audio_directory Sample.env0 "in" "in" Sample.start = (Ok 1, s1)
    ∧ process_audio_directory Sample.env0 "in" "in" s1 = (Ok n2, s2)
    ∧ fs s2 = fs s1.
Proof.
  assert ((process_audio_directory Sample.env0 "in" "in" Sample.start).1 = Ok 1) as Hn
    by (vm_compute; reflexivity).
  destruct (process_audio_directory Sample.env0 "in" "in" Sample.start) as [r s1] eqn:Hrun.
  simpl in Hn. subst r.
  destruct (second_run_changes_nothing Sample.env0 "in" "in" Sample.start s1 1)
    as (n2 & s2 & Hrun2 & Hfs & _).
  - vm_compute. reflexivity.
  - exact Hrun.
  - exists s1, n2, s2. split_and!; [reflexivity|exact Hrun2|exact Hfs].
Defined.
